(** * dotmng: a shallow embedding of [dotfile_manager.py]

    The development models the decision engine of the dotfile manager
    (variant scorer, file classifier, compatibility detector), the
    installer and the repository registry, and states the properties of
    the specification against that model.

    Conventions of the model.
    - Python [str] is [string] (bytes); [lower], [upper], [strip] and
      [split] act on the ASCII range only.
    - A [pathlib.Path] is the list of its segments below the root; every
      path is absolute.
    - Dictionaries that the code only iterates over ([environment],
      the grouping by program) are association lists in insertion order.
    - An exception that escapes a method is the [Raise] outcome. *)

From Stdlib Require Import Ascii.
From Stdlib Require String.
From stdpp Require Import gmap strings list pretty.
From stdpp Require Import sorting.

Set Warnings "-register-all".

(* ================================================================= *)
(** * Part I: the model *)
(* ================================================================= *)

(** ** Strings *)

Module Str.

Definition lower_char (c : ascii) : ascii :=
  let n := Ascii.nat_of_ascii c in
  if (65 <=? n) && (n <=? 90) then Ascii.ascii_of_nat (n + 32) else c.

Definition upper_char (c : ascii) : ascii :=
  let n := Ascii.nat_of_ascii c in
  if (97 <=? n) && (n <=? 122) then Ascii.ascii_of_nat (n - 32) else c.

Fixpoint map_chars (f : ascii → ascii) (s : string) : string :=
  match s with
  | EmptyString => EmptyString
  | String c s' => String (f c) (map_chars f s')
  end.

(** [str.lower()] and [str.upper()]. *)
Definition lower : string → string := map_chars lower_char.
Definition upper : string → string := map_chars upper_char.

(** The characters [str.split()] and [str.strip()] treat as white space:
    TAB, LF, VT, FF, CR, FS, GS, RS, US and the blank. *)
Definition is_space (c : ascii) : bool :=
  let n := Ascii.nat_of_ascii c in
  ((9 <=? n) && (n <=? 13)) || ((28 <=? n) && (n <=? 32)).

Definition is_char (d c : ascii) : bool := bool_decide (c = d).

(** [x in s] on strings: [x] occurs in [s] as a contiguous block. *)
Fixpoint contains (s x : string) : bool :=
  String.prefix x s ||
  match s with
  | EmptyString => false
  | String _ s' => contains s' x
  end.

(** [s.startswith(x)]. *)
Definition startswith (s x : string) : bool := String.prefix x s.

(** Truth value of a string in a condition: non-empty. *)
Definition truthy (s : string) : bool :=
  match s with EmptyString => false | String _ _ => true end.

(** [s.split(sep)] for a one-character separator, generalised to a class
    of separator characters: every separator ends a field, empty fields
    are kept, the result is never empty. *)
Fixpoint split_on (p : ascii → bool) (s : string) : list string :=
  match s with
  | EmptyString => [EmptyString]
  | String c s' =>
      if p c then EmptyString :: split_on p s'
      else match split_on p s' with
           | [] => [String c EmptyString]
           | w :: ws => String c w :: ws
           end
  end.

(** [s.split()]: the maximal runs of characters that are not white space. *)
Definition split_ws (s : string) : list string :=
  List.filter truthy (split_on is_space s).

(** [sep.join(l)]. *)
Fixpoint join (sep : string) (l : list string) : string :=
  match l with
  | [] => EmptyString
  | [x] => x
  | x :: l' => x +:+ sep +:+ join sep l'
  end.

Fixpoint lstrip (s : string) : string :=
  match s with
  | EmptyString => EmptyString
  | String c s' => if is_space c then lstrip s' else s
  end.

Fixpoint rstrip (s : string) : string :=
  match s with
  | EmptyString => EmptyString
  | String c s' =>
      match rstrip s' with
      | EmptyString => if is_space c then EmptyString else String c EmptyString
      | r => String c r
      end
  end.

(** [s.strip()]. *)
Definition strip (s : string) : string := lstrip (rstrip s).

(** [s.rfind('.')]: position of the last dot. *)
Fixpoint rfind_dot (s : string) : option nat :=
  match s with
  | EmptyString => None
  | String c s' =>
      match rfind_dot s' with
      | Some i => Some (S i)
      | None => if is_char "." c then Some 0 else None
      end
  end.

End Str.

(** ** Outcomes of a method call *)

Inductive exn := NotADirectoryError | FileExistsError | FileNotFoundError.

Inductive result (A : Type) :=
| Ok (a : A)
| Raise (e : exn).
Arguments Ok {A} a.
Arguments Raise {A} e.

(** Sequencing ([x ← r; k] below): an exception skips what follows. *)
#[global] Instance result_bind : MBind result := λ A B k r,
  match r with
  | Ok a => k a
  | Raise e => Raise e
  end.

(** ** Paths *)

Definition Path := list string.

(** [Path.name] and [Path.parent]. *)
Definition name (p : Path) : string := List.last p EmptyString.
Definition parent (p : Path) : Path := List.removelast p.

(** The segments [pathlib] keeps of a string: empty segments and lone
    dots are dropped. *)
Definition keep_segment (x : string) : bool :=
  negb (String.eqb x "") && negb (String.eqb x ".").

Definition segments (s : string) : list string :=
  List.filter keep_segment (Str.split_on (Str.is_char "/") s).

(** [p / s] for a string [s]: an absolute [s] replaces [p]. *)
Definition joinpath (p : Path) (s : string) : Path :=
  if Str.startswith s "/" then segments s else p ++ segments s.

(** [PurePath.stem]: the name up to its last dot, when that dot is
    neither the first nor the last character. *)
Definition stem (nm : string) : string :=
  match Str.rfind_dot nm with
  | Some i =>
      if (0 <? i) && (i <? String.length nm - 1)
      then String.substring 0 i nm else nm
  | None => nm
  end.

(** ** The file tree read by the scorer and the classifier *)

Inductive node :=
| File
| Dir (children : list (string * node)).

Definition is_dir_node (n : node) : bool :=
  match n with Dir _ => true | File => false end.

Definition is_file_node (n : node) : bool :=
  match n with File => true | Dir _ => false end.

Fixpoint assoc {A} (k : string) (l : list (string * A)) : option A :=
  match l with
  | [] => None
  | (k', v) :: l' => if String.eqb k k' then Some v else assoc k l'
  end.

(** The node a path denotes in the tree [n], if any. *)
Fixpoint lookup_path (n : node) (p : Path) : option node :=
  match p with
  | [] => Some n
  | x :: p' =>
      match n with
      | File => None
      | Dir cs =>
          match assoc x cs with
          | Some c => lookup_path c p'
          | None => None
          end
      end
  end.

(** [Path.exists()]. *)
Definition exists_ (fs : node) (p : Path) : bool :=
  match lookup_path fs p with Some _ => true | None => false end.

(** [Path.rglob('*')] below a directory: every entry of the subtree with
    its path relative to the directory, parents before their contents. *)
Fixpoint rglob (n : node) : list (list string * node) :=
  match n with
  | File => []
  | Dir cs =>
      (fix go (cs : list (string * node)) : list (list string * node) :=
         match cs with
         | [] => []
         | (x, c) :: cs' =>
             ([x], c) :: List.map (λ e, (x :: e.1, e.2)) (rglob c) ++ go cs'
         end) cs
  end.

(** ** The manager object *)

Record Rule := { message : string; suggestion : string }.

Record Config := {
  backup_existing_flag : bool;
  create_backup_dir : bool;
  dry_run : bool;
  custom_mappings : gmap string (gmap string string)
}.

Record Manager := {
  repo_path : Path;
  home : Path;
  config : Config;
  single_config_only : gmap string Rule;
  supports_multiple_configs : gmap string Rule
}.

(** [self.home_config]. *)
Definition home_config (self : Manager) : Path := home self ++ [".config"].

(** [_get_default_config]. *)
Definition default_config : Config :=
  {| backup_existing_flag := true; create_backup_dir := true;
     dry_run := false; custom_mappings := ∅ |}.

(** [_get_default_program_compatibility]. *)
Definition one_file_suggestion : string :=
  "Consider using different config names or environment-specific subdirectories.".

Definition default_single_config_only : gmap string Rule :=
  {[ "alacritty" :=
       {| message := "Alacritty can only load one configuration file. Multiple configs will overwrite each other.";
          suggestion := one_file_suggestion |};
     "kitty" :=
       {| message := "Kitty can only load one configuration file. Multiple configs will overwrite each other.";
          suggestion := one_file_suggestion |} ]}.

Definition default_supports_multiple_configs : gmap string Rule :=
  {[ "eww" :=
       {| message := "EWW supports multiple configuration files and can load them via command line arguments.";
          suggestion := "Use --config flag to specify different config files." |} ]}.

(** ** Variant scorer *)

(** [find_widget_configs]: the sub-directories of the widget other than
    [default], in listing order, then [default] when that path exists.
    Listing a widget path that is a regular file raises. *)
Definition find_widget_configs (self : Manager) (fs : node)
    (widget_name : string) : result (list Path) :=
  let widget_path := joinpath (repo_path self) widget_name in
  match lookup_path fs widget_path with
  | None => Ok []
  | Some File => Raise NotADirectoryError
  | Some (Dir items) =>
      let configs :=
        fold_left (λ configs (item : string * node),
          if is_dir_node item.2 && negb (String.eqb item.1 "default")
          then configs ++ [widget_path ++ [item.1]] else configs) items [] in
      let default_path := widget_path ++ ["default"] in
      if exists_ fs default_path then Ok (configs ++ [default_path])
      else Ok configs
  end.

(** The score the loop body of [select_best_config] computes for one
    variant; [config_name] is already lower-cased. *)
Definition config_score (environment : list (string * string))
    (config_name : string) : nat :=
  let score :=
    fold_left (λ score (kv : string * string),
      if Str.truthy kv.2 && Str.contains config_name (Str.lower kv.2)
      then score + 2 else score) environment 0 in
  fold_left (λ score (kv : string * string),
    if Str.truthy kv.2 &&
       existsb (λ part, Str.contains config_name part)
               (Str.split_ws (Str.lower kv.2))
    then score + 1 else score) environment score.

Definition select_step (environment : list (string * string))
    (st : option Path * nat) (config_path : Path) : option Path * nat :=
  if String.eqb (name config_path) "default" then st
  else
    let score := config_score environment (Str.lower (name config_path)) in
    if st.2 <? score then (Some config_path, score) else st.

Definition select_best_config (self : Manager) (fs : node)
    (widget_name : string) (environment : list (string * string))
    : result (option Path) :=
  configs ← find_widget_configs self fs widget_name;
  match configs with
  | [] => Ok None
  | _ =>
      let best := fold_left (select_step environment) configs (None, 0) in
      match best.1 with
      | Some best_config => Ok (Some best_config)
      | None =>
          let default_path :=
            joinpath (repo_path self) widget_name ++ ["default"] in
          if exists_ fs default_path then Ok (Some default_path) else Ok None
      end
  end.

(** ** File classifier *)

(** The body of the loop of [get_config_files] for one entry of the walk;
    the destination is kept as a path ([str(target_dir)] is read back
    with [Path(target_dir)] by every consumer). *)
Definition classify_step (self : Manager) (config_path : Path)
    (files : list (Path * Path)) (e : list string * node)
    : list (Path * Path) :=
  let item := config_path ++ e.1 in
  if is_file_node e.2 && negb (Str.startswith (name item) ".") then
    let relative_parts := e.1 in
    let target_dir :=
      if 1 <? length relative_parts then
        let program_name := List.hd EmptyString relative_parts in
        let widget_name := name (parent config_path) in
        let mappings :=
          default ∅ (custom_mappings (config self) !! widget_name) in
        match mappings !! program_name with
        | Some mapped => joinpath (home_config self) mapped
        | None => joinpath (home_config self) program_name
        end
      else
        let program_name := stem (name item) in
        joinpath (home_config self) program_name in
    files ++ [(item, target_dir)]
  else files.

Definition get_config_files (self : Manager) (fs : node)
    (config_path : Path) : list (Path * Path) :=
  match lookup_path fs config_path with
  | Some n => fold_left (classify_step self config_path) (rglob n) []
  | None => []
  end.

(** ** Compatibility conflict detector *)

(** [d[k].append(v)], creating the entry at the end of the dictionary
    when [k] is new. *)
Fixpoint dict_append {A} (k : string) (v : A) (d : list (string * list A))
    : list (string * list A) :=
  match d with
  | [] => [(k, [v])]
  | (k', vs) :: d' =>
      if String.eqb k k' then (k', vs ++ [v]) :: d'
      else (k', vs) :: dict_append k v d'
  end.

Definition group_step (program_files : list (string * list (Path * Path)))
    (pair : Path * Path) : list (string * list (Path * Path)) :=
  dict_append (name pair.2) pair program_files.

Record Report := {
  single_config_warnings : list string;
  multiple_config_info : list string
}.

Definition bytes (l : list nat) : string :=
  String.string_of_list_ascii (List.map Ascii.ascii_of_nat l).

(** The pictograms that open the messages, as the bytes of the source. *)
Definition warning_sign : string :=
  bytes [195; 162; 197; 161; 194; 160; 195; 175; 194; 184].
Definition bulb_sign : string :=
  bytes [195; 176; 197; 184; 226; 128; 153; 194; 161].
Definition info_sign : string :=
  bytes [195; 162; 226; 128; 158; 194; 185; 195; 175; 194; 184].

Definition file_detail (pair : Path * Path) : string :=
  let source_path := pair.1 in
  let env_name := name (parent (parent source_path)) in
  "     - " +:+ env_name +:+ ": " +:+ name source_path.

(** The body of the final loop of [check_program_compatibility]. *)
Definition report_step (self : Manager) (warnings : Report)
    (entry : string * list (Path * Path)) : Report :=
  let program_name := entry.1 in
  let files := entry.2 in
  if 1 <? length files then
    match single_config_only self !! program_name with
    | Some warning_info =>
        let warning_msg :=
          warning_sign +:+ "  " +:+ Str.upper program_name +:+ ": "
            +:+ message warning_info in
        let suggestion_msg :=
          "   " +:+ bulb_sign +:+ " Suggestion: "
            +:+ suggestion warning_info in
        let file_details := List.map file_detail files in
        let extended :=
          single_config_warnings warnings ++ [warning_msg; suggestion_msg] in
        {| single_config_warnings :=
             match file_details with
             | [] => extended
             | _ => extended ++ ["   Conflicting files:"] ++ file_details
             end;
           multiple_config_info := multiple_config_info warnings |}
    | None =>
        match supports_multiple_configs self !! program_name with
        | Some info_data =>
            let info_msg :=
              info_sign +:+ "  " +:+ Str.upper program_name +:+ ": "
                +:+ message info_data in
            let suggestion_msg :=
              "   " +:+ bulb_sign +:+ " Suggestion: "
                +:+ suggestion info_data in
            {| single_config_warnings := single_config_warnings warnings;
               multiple_config_info :=
                 multiple_config_info warnings ++ [info_msg; suggestion_msg] |}
        | None => warnings
        end
    end
  else warnings.

(** The grouping [check_program_compatibility] reports on. An absent or
    empty [widget_name] is false in the condition [if widget_name:]. *)
Definition program_files_of (self : Manager) (fs : node)
    (config_files : list (Path * Path)) (widget_name : option string)
    : result (list (string * list (Path * Path))) :=
  let program_files := fold_left group_step config_files [] in
  match widget_name with
  | Some w =>
      if Str.truthy w then
        all_configs ← find_widget_configs self fs w;
        let all_program_files :=
          fold_left (λ all_program_files config_path,
            let all_files := get_config_files self fs config_path in
            fold_left group_step all_files all_program_files)
            all_configs [] in
        Ok (if 1 <? length all_configs then all_program_files
            else program_files)
      else Ok program_files
  | None => Ok program_files
  end.

Definition check_program_compatibility (self : Manager) (fs : node)
    (config_files : list (Path * Path)) (widget_name : option string)
    : result Report :=
  program_files ← program_files_of self fs config_files widget_name;
  Ok (fold_left (report_step self) program_files
        {| single_config_warnings := []; multiple_config_info := [] |}).

(** ** Installer *)

(** The disk the installer writes to: the regular files with their
    contents and the directories. The root is always a directory.
    Permissions are not modelled: an operation fails only for the shape
    of the disk. *)
Record Disk := {
  regular : gmap Path string;
  directories : gset Path
}.

Definition is_file (d : Disk) (p : Path) : bool :=
  bool_decide (is_Some (regular d !! p)).

Definition is_dir (d : Disk) (p : Path) : bool :=
  bool_decide (p = [] ∨ p ∈ directories d).

(** [Path.exists()] on the disk. *)
Definition path_exists (d : Disk) (p : Path) : bool :=
  is_file d p || is_dir d p.

(** The non-empty prefixes of a path, shortest first. *)
Fixpoint prefixes (p : Path) : list Path :=
  match p with
  | [] => []
  | x :: p' => [x] :: List.map (cons x) (prefixes p')
  end.

(** [p.mkdir(parents=True, exist_ok=True)]: raises when [p] or one of
    its ancestors is a regular file, and then creates nothing. *)
Definition mkdir_parents (p : Path) (d : Disk) : result unit * Disk :=
  if is_file d p then (Raise FileExistsError, d)
  else if existsb (is_file d) (prefixes p) then (Raise NotADirectoryError, d)
  else (Ok (), {| regular := regular d;
                  directories := directories d ∪ list_to_set (prefixes p) |}).

(** [p.mkdir(exist_ok=True)]: the parent must be a directory. *)
Definition mkdir (p : Path) (d : Disk) : result unit * Disk :=
  if is_dir d p then (Ok (), d)
  else if is_file d p then (Raise FileExistsError, d)
  else if existsb (is_file d) (prefixes p) then (Raise NotADirectoryError, d)
  else if is_dir d (parent p) then
    (Ok (), {| regular := regular d; directories := directories d ∪ {[ p ]} |})
  else (Raise FileNotFoundError, d).

(** [shutil.copy2(src, dst)]; [None] stands for any exception, which
    both callers catch. A directory as [dst] receives the file under the
    name of [src]. *)
Definition copy2 (src dst : Path) (d : Disk) : option Disk :=
  match regular d !! src with
  | None => None
  | Some content =>
      let dst' := if is_dir d dst then dst ++ [name src] else dst in
      if bool_decide (dst' = src) then None
      else if is_dir d dst' then None
      else if negb (is_dir d (parent dst')) then None
      else Some {| regular := <[dst' := content]> (regular d);
                   directories := directories d |}
  end.

(** [~/.config_backup]. *)
Definition backup_dir (self : Manager) : Path := home self ++ [".config_backup"].

(** The [while backup_path.exists()] loop of [backup_existing]. *)
Fixpoint backup_loop (fuel : nat) (d : Disk) (dir : Path) (nm : string)
    (backup_path : Path) (counter : nat) : option Path :=
  match fuel with
  | 0 => None
  | S fuel' =>
      if path_exists d backup_path
      then backup_loop fuel' d dir nm
             (dir ++ [nm +:+ "." +:+ pretty counter]) (S counter)
      else Some backup_path
  end.

Definition disk_size (d : Disk) : nat := size (regular d) + size (directories d).

(** The path the loop stops at. The fuel exceeds the number of paths on
    the disk, which is enough for the loop to stop
    ([backup_loop_terminates] below). *)
Definition free_backup_path (d : Disk) (dir : Path) (nm : string) : Path :=
  default (dir ++ [nm])
    (backup_loop (S (S (disk_size d))) d dir nm (dir ++ [nm]) 1).

Definition backup_existing (self : Manager) (target_path : Path) (d : Disk)
    : result bool * Disk :=
  if negb (path_exists d target_path) then (Ok true, d)
  else if negb (backup_existing_flag (config self)) then (Ok true, d)
  else
    let made :=
      if create_backup_dir (config self) then mkdir (backup_dir self) d
      else (Ok (), d) in
    match made with
    | (Raise e, d1) => (Raise e, d1)
    | (Ok _, d1) =>
        let backup_path :=
          free_backup_path d1 (backup_dir self) (name target_path) in
        match copy2 target_path backup_path d1 with
        | Some d2 => (Ok true, d2)
        | None => (Ok false, d1)
        end
    end.

Definition install_config (self : Manager) (source_path target_dir : Path)
    (d : Disk) : result bool * Disk :=
  let target_path := target_dir ++ [name source_path] in
  if dry_run (config self) then (Ok true, d)
  else
    match mkdir_parents (parent target_path) d with
    | (Raise e, d1) => (Raise e, d1)
    | (Ok _, d1) =>
        match backup_existing self target_path d1 with
        | (Raise e, d2) => (Raise e, d2)
        | (Ok false, d2) => (Ok false, d2)
        | (Ok true, d2) =>
            match copy2 source_path target_path d2 with
            | Some d3 => (Ok true, d3)
            | None => (Ok false, d2)
            end
        end
    end.

(** The closing loop of [install_widget] over the classified pairs,
    started with [success = True]. *)
Fixpoint install_loop (self : Manager) (config_files : list (Path * Path))
    (success : bool) (d : Disk) : result bool * Disk :=
  match config_files with
  | [] => (Ok success, d)
  | (source_path, target_dir) :: rest =>
      match install_config self source_path target_dir d with
      | (Ok ok, d') => install_loop self rest (if ok then success else false) d'
      | (Raise e, d') => (Raise e, d')
      end
  end.

(** ** Repository registry *)

Record RepoEntry := {
  repo_name : string;
  repo_url : string;
  repo_description : string;
  repo_tags : list string
}.

(** The registry file: its text when it exists, and whether it can be
    opened for writing. *)
Record Store := {
  repo_list_file : option string;
  writable : bool
}.

(** What the registry uses from outside: the name [urllib] extracts from
    a URL and the metadata read from a checkout ([None] when reading it
    raises). *)
Record External := {
  extract_repo_name_from_url : string → string;
  fetch_repo_metadata : string → string → option (string * list string)
}.

Definition is_newline (c : ascii) : bool :=
  Str.is_char "010" c || Str.is_char "013" c.

(** The record of one line, as the loop body of [load_repo_list] builds
    it; the [line_number] field, which only messages use, is left out. *)
Definition parse_line (line : string) : option RepoEntry :=
  let line := Str.strip line in
  if Str.truthy line && negb (Str.startswith line "#") then
    let parts := Str.split_on (Str.is_char "|") line in
    match parts with
    | p0 :: p1 :: rest =>
        Some {| repo_name := Str.strip p0;
                repo_url := Str.strip p1;
                repo_description :=
                  match rest with p2 :: _ => Str.strip p2 | [] => EmptyString end;
                repo_tags :=
                  match rest with
                  | _ :: p3 :: _ => Str.split_on (Str.is_char ",") (Str.strip p3)
                  | _ => []
                  end |}
    | _ => None
    end
  else None.

Definition load_repo_list (st : Store) : list RepoEntry :=
  match repo_list_file st with
  | None => []
  | Some text =>
      fold_left (λ repos line,
        match parse_line line with
        | Some repo_info => repos ++ [repo_info]
        | None => repos
        end) (Str.split_on is_newline text) []
  end.

Definition newline : string := String "010" EmptyString.

Definition header : string :=
  "# Compatible Dotfile Repositories" +:+ newline +:+
  "# Format: name|url|description|tags (comma-separated)" +:+ newline +:+
  "# Example: my-theme|https://github.com/user/my-theme.git|A beautiful theme|hyprland,eww"
    +:+ newline +:+ newline.

Definition repo_line (repo : RepoEntry) : string :=
  let tags_str := Str.join "," (repo_tags repo) in
  repo_name repo +:+ "|" +:+ repo_url repo +:+ "|" +:+
  repo_description repo +:+ "|" +:+ tags_str +:+ newline.

Definition save_repo_list (repos : list RepoEntry) (st : Store)
    : bool * Store :=
  if writable st then
    (true,
     {| repo_list_file :=
          Some (fold_left (λ text repo, text +:+ repo_line repo) repos header);
        writable := true |})
  else (false, st).

Definition add_repo (ext : External) (url description : string)
    (tags : list string) (name : option string) (fetch_metadata : bool)
    (st : Store) : bool * Store :=
  let name := default (extract_repo_name_from_url ext url) name in
  let repos := load_repo_list st in
  if existsb (λ repo,
       String.eqb (repo_name repo) name || String.eqb (repo_url repo) url)
     repos
  then (false, st)
  else
    let fetched :=
      if fetch_metadata && negb (Str.truthy description)
         && negb (bool_decide (tags ≠ []))
      then
        match fetch_repo_metadata ext url name with
        | Some (meta_description, meta_tags) =>
            (if Str.truthy meta_description then meta_description
             else description,
             match meta_tags with [] => tags | _ => meta_tags end)
        | None => (description, tags)
        end
      else (description, tags) in
    let new_repo :=
      {| repo_name := name; repo_url := url;
         repo_description := fetched.1; repo_tags := fetched.2 |} in
    save_repo_list (repos ++ [new_repo]) st.

(** ** Environment fingerprint detector *)

(** What the detector reads: the process environment ([os.environ]) and
    the standard output of [ps -e], absent when running it raises. The
    two detectors run [ps -e] once each; the model gives both runs the
    same output, and no property below relates the two. *)
Record Probe := {
  getenv : string → option string;
  ps_output : option string
}.

(** [os.environ.get(var)] used as a condition: set and not empty. *)
Definition env_set (pr : Probe) (var : string) : bool :=
  match getenv pr var with Some v => Str.truthy v | None => false end.

(** [os.environ.get(var, '')]. *)
Definition env_get (pr : Probe) (var : string) : string :=
  default EmptyString (getenv pr var).

(** An [if name in text ... elif ...] chain: the first name that occurs. *)
Fixpoint first_match (names : list string) (text : string) : option string :=
  match names with
  | [] => None
  | n :: names' =>
      if Str.contains text n then Some n else first_match names' text
  end.

(** The loop over the lines of the process list: the first line in which
    one of the names occurs decides. *)
Fixpoint scan_lines (names : list string) (lines : list string)
    : option string :=
  match lines with
  | [] => None
  | line :: lines' =>
      match first_match names (Str.lower line) with
      | Some n => Some n
      | None => scan_lines names lines'
      end
  end.

Definition scan_processes (pr : Probe) (names : list string) : option string :=
  match ps_output pr with
  | Some stdout => scan_lines names (Str.split_on (Str.is_char "010") stdout)
  | None => None
  end.

Definition window_managers : list string :=
  ["hyprland"; "labwc"; "sway"; "i3"; "openbox"; "fluxbox"].

Definition _detect_window_manager (pr : Probe) : option string :=
  if env_set pr "HYPRLAND_INSTANCE_SIGNATURE" then Some "hyprland"
  else if env_set pr "LABWC_SOCKET" then Some "labwc"
  else if env_set pr "SWAYSOCK" then Some "sway"
  else if env_set pr "I3SOCK" then Some "i3"
  else
    let desktop_session := Str.lower (env_get pr "DESKTOP_SESSION") in
    if bool_decide (desktop_session ∈ window_managers)
    then Some desktop_session
    else
      let xdg_desktop := Str.lower (env_get pr "XDG_CURRENT_DESKTOP") in
      match first_match window_managers xdg_desktop with
      | Some wm => Some wm
      | None => scan_processes pr ["hyprland"; "labwc"; "sway"; "i3"]
      end.

Definition _detect_compositor (pr : Probe) : option string :=
  if env_set pr "WAYLAND_DISPLAY" then Some "wayland"
  else if env_set pr "PICOM_CONFIG" then Some "picom"
  else
    let session_type := Str.lower (env_get pr "XDG_SESSION_TYPE") in
    if String.eqb session_type "wayland" then Some "wayland"
    else scan_processes pr ["picom"; "compton"; "xcompmgr"].

(** [env[key] = value] under [if value:]. *)
Definition env_entry (key : string) (value : option string)
    : list (string * string) :=
  match value with
  | Some v => if Str.truthy v then [(key, v)] else []
  | None => []
  end.

(** [detect_environment]: the dictionary in insertion order. *)
Definition detect_environment (pr : Probe) : list (string * string) :=
  let wm := _detect_window_manager pr in
  let compositor := _detect_compositor pr in
  let shell :=
    List.last (Str.split_on (Str.is_char "/") (env_get pr "SHELL"))
      EmptyString in
  let terminal := env_get pr "TERM" in
  env_entry "window_manager" wm ++ env_entry "compositor" compositor
  ++ env_entry "shell" (Some shell) ++ env_entry "terminal" (Some terminal).

(** ** Widgets of a repository *)

(** [Path.iterdir()]. *)
Definition iterdir (fs : node) (p : Path) : result (list (string * node)) :=
  match lookup_path fs p with
  | None => Raise FileNotFoundError
  | Some File => Raise NotADirectoryError
  | Some (Dir items) => Ok items
  end.

Definition is_widget_dir (item : string * node) : bool :=
  is_dir_node item.2 && negb (Str.startswith item.1 ".").

(** The comprehension [[d.name for d in self.repo_path.iterdir() if
    d.is_dir() and not d.name.startswith('.')]] of [list_widgets] and
    [install_all_widgets]. *)
Definition widget_names (self : Manager) (fs : node) : result (list string) :=
  items ← iterdir fs (repo_path self);
  Ok (List.map fst (List.filter is_widget_dir items)).

(** [list_widgets]: [sorted] orders strings by code point, which is the
    order of their bytes. *)
Definition list_widgets (self : Manager) (fs : node) : result (list string) :=
  widgets ← widget_names self fs;
  Ok (merge_sort String.le widgets).

(** ** Installing a widget *)

(** [install_widget]. The tree [fs] is the file system as the method
    reads it, which it does before its first write; [detected] is the
    result of [detect_environment], used when no fingerprint is given. *)
Definition install_widget (self : Manager) (fs : node)
    (detected : list (string * string)) (widget_name : string)
    (environment : option (list (string * string)))
    (use_config_fallback : bool) (d : Disk) : result bool * Disk :=
  let environment := default detected environment in
  match select_best_config self fs widget_name environment with
  | Raise e => (Raise e, d)
  | Ok selected =>
      let chosen :=
        match selected with
        | Some config_path => Some config_path
        | None => if use_config_fallback then Some (home_config self) else None
        end in
      match chosen with
      | None => (Ok false, d)
      | Some config_path =>
          match get_config_files self fs config_path with
          | [] => (Ok false, d)
          | config_files =>
              match check_program_compatibility self fs config_files
                      (Some widget_name) with
              | Raise e => (Raise e, d)
              | Ok _ => install_loop self config_files true d
              end
          end
      end
  end.

(** ** Registry: removal *)


(* ================================================================= *)
(** * Part II: the specification: reference definitions, statements
      as worded, example data *)
(* ================================================================= *)

Module Spec.

(** [value] occurs in [variant_name], case ignored. *)
Definition occurs_in (value variant_name : string) : bool :=
  Str.contains (Str.lower variant_name) (Str.lower value).

(** Some white-space separated token of [value] occurs in the name. *)
Definition token_occurs_in (value variant_name : string) : bool :=
  existsb (λ token, occurs_in token variant_name) (Str.split_ws value).

(** The score of the specification: 2 for every fingerprint value that
    occurs in the variant name, and 1 more for every value with a token
    that occurs in it. *)
Definition score (fingerprint : list (string * string))
    (variant_name : string) : nat :=
  2 * length (List.filter (λ kv, occurs_in kv.2 variant_name) fingerprint)
  + length (List.filter (λ kv, token_occurs_in kv.2 variant_name) fingerprint).

(** The same score when only the non-empty values can earn the 2 points. *)
Definition score_nonempty (fingerprint : list (string * string))
    (variant_name : string) : nat :=
  2 * length (List.filter
                (λ kv, Str.truthy kv.2 && occurs_in kv.2 variant_name)
                fingerprint)
  + length (List.filter (λ kv, token_occurs_in kv.2 variant_name) fingerprint).

Definition is_default (variant : Path) : bool :=
  String.eqb (name variant) "default".

(** The first variant that reaches the highest score, when that score is
    above zero. *)
Definition best_variant (score_of : Path → nat) (candidates : list Path)
    : option Path :=
  let top := max_list (List.map score_of candidates) in
  if top =? 0 then None
  else List.find (λ v, score_of v =? top) candidates.

(** The selection: the best non-default variant, else the default. *)
Definition select (score_of : string → nat) (variants : list Path)
    (default_variant : option Path) : option Path :=
  let candidates := List.filter (λ v, negb (is_default v)) variants in
  match best_variant (λ v, score_of (name v)) candidates with
  | Some v => Some v
  | None => default_variant
  end.

End Spec.

(** The [default] variant of a widget, when that path exists. *)
Definition default_variant (self : Manager) (fs : node)
    (widget_name : string) : option Path :=
  let default_path := joinpath (repo_path self) widget_name ++ ["default"] in
  if exists_ fs default_path then Some default_path else None.

(** C1 as the specification words it: the selector is the reference
    selection with the reference score, on the variants enumerated. *)
Definition selector_is_reference : Prop :=
  ∀ self fs widget_name fingerprint,
    select_best_config self fs widget_name fingerprint =
    (variants ← find_widget_configs self fs widget_name;
     Ok (Spec.select (Spec.score fingerprint) variants
           (default_variant self fs widget_name))).

(** The fingerprint and the widget of the worked example. *)
Definition example_fingerprint : list (string * string) :=
  [("window_manager", "hyprland"); ("shell", "zsh")].

Definition example_variants (widget_path : Path) : list Path :=
  [widget_path ++ ["hyprland-zsh"]; widget_path ++ ["hyprland"];
   widget_path ++ ["default"]].

(** A repository with the widget of the worked example and a terminal
    widget of two variants; the first holds a root file, a program
    directory, a hidden file and a file below a dot-named directory. *)
Definition example_fs : node :=
  Dir [("repo",
        Dir [("bar", Dir [("hyprland-zsh", Dir []); ("hyprland", Dir []);
                          ("default", Dir [])]);
             ("term",
              Dir [("plain",
                    Dir [("config.toml", File);
                         ("alacritty", Dir [("alacritty.yml", File)]);
                         (".hidden", File);
                         (".cache", Dir [("state", File)])]);
                   ("light",
                    Dir [("alacritty", Dir [("alacritty.yml", File)])])])])].

Definition example_manager : Manager :=
  {| repo_path := ["repo"]; home := ["home"; "u"];
     config := default_config;
     single_config_only := default_single_config_only;
     supports_multiple_configs := default_supports_multiple_configs |}.

(** C2 as the specification words it: scores 4 and 2. *)
Definition example_scores_as_stated : Prop :=
  config_score example_fingerprint (Str.lower "hyprland-zsh") = 4 ∧
  config_score example_fingerprint (Str.lower "hyprland") = 2 ∧
  select_best_config example_manager example_fs "bar" example_fingerprint
  = Ok (Some ["repo"; "bar"; "hyprland-zsh"]).

(** An entry of a directory tree: [entry_at n parts c] when following
    [parts] from [n] leads to [c]. *)
Inductive entry_at : node → list string → node → Prop :=
| entry_here cs x c :
    In (x, c) cs → entry_at (Dir cs) [x] c
| entry_below cs x c parts c' :
    In (x, c) cs → entry_at c parts c' → entry_at (Dir cs) (x :: parts) c'.

(** The variant of the terminal widget that the examples classify. *)
Definition plain_variant : node :=
  Dir [("config.toml", File);
       ("alacritty", Dir [("alacritty.yml", File)]);
       (".hidden", File);
       (".cache", Dir [("state", File)])].

(** A hidden file: its own name starts with a dot. *)
Definition hidden (parts : list string) : bool :=
  Str.startswith (name parts) ".".

(** The entry of the owning widget's custom-mapping table for a program. *)
Definition mapping (self : Manager) (config_path : Path)
    (program_name : string) : option string :=
  mappings ← custom_mappings (config self) !! name (parent config_path);
  mappings !! program_name.

(** The destination the specification gives to the file at [parts] below
    the variant root [config_path]: under a sub-directory, the first
    segment or its mapped name; at the root, the stem of the file name. *)
Definition destination (self : Manager) (config_path : Path)
    (parts : list string) : Path :=
  match parts with
  | program_name :: _ :: _ =>
      joinpath (home_config self)
        (default program_name (mapping self config_path program_name))
  | _ => joinpath (home_config self) (stem (name parts))
  end.


(** ** Grouping by destination program *)

(** The program a pair is destined for: the last segment of its
    destination directory. *)
Definition program_of (pair : Path * Path) : string := name pair.2.

(** The pairs that contribute to a program. *)
Definition contributing (pairs : list (Path * Path)) (program_name : string)
    : list (Path * Path) :=
  List.filter (λ pair, String.eqb (program_of pair) program_name) pairs.

(** The distinct elements of a list, in the order of first occurrence. *)
Fixpoint first_occurrences (l : list string) : list string :=
  match l with
  | [] => []
  | x :: l' =>
      x :: List.filter (λ y, negb (String.eqb y x)) (first_occurrences l')
  end.

(** The grouping of the specification: every destination program, in
    the order of first occurrence, with the pairs that contribute to it. *)
Definition grouping (pairs : list (Path * Path))
    : list (string * list (Path * Path)) :=
  List.map (λ program_name, (program_name, contributing pairs program_name))
    (first_occurrences (List.map program_of pairs)).

(** The messages the report loop adds for one entry of the grouping. *)
Definition empty_report : Report :=
  {| single_config_warnings := []; multiple_config_info := [] |}.

Definition warnings_for (self : Manager)
    (entry : string * list (Path * Path)) : list string :=
  single_config_warnings (report_step self empty_report entry).

Definition infos_for (self : Manager)
    (entry : string * list (Path * Path)) : list string :=
  multiple_config_info (report_step self empty_report entry).

(** The three cases of the specification for a program with more than
    one contributing file. *)
Definition single_case (self : Manager) (program_name : string)
    (files : list (Path * Path)) : Prop :=
  is_Some (single_config_only self !! program_name) →
  (∃ warning_msg suggestion_msg,
     warnings_for self (program_name, files) =
       warning_msg :: suggestion_msg :: "   Conflicting files:"
         :: List.map file_detail files ∧
     Str.contains warning_msg (Str.upper program_name) = true) ∧
  infos_for self (program_name, files) = [].

Definition multiple_case (self : Manager) (program_name : string)
    (files : list (Path * Path)) : Prop :=
  is_Some (supports_multiple_configs self !! program_name) →
  warnings_for self (program_name, files) = [] ∧
  ∃ info_msg suggestion_msg,
    infos_for self (program_name, files) = [info_msg; suggestion_msg] ∧
    Str.contains info_msg (Str.upper program_name) = true.

Definition unregistered_case (self : Manager) (program_name : string)
    (files : list (Path * Path)) : Prop :=
  single_config_only self !! program_name = None →
  supports_multiple_configs self !! program_name = None →
  warnings_for self (program_name, files) = [] ∧
  infos_for self (program_name, files) = [].

(** C4 as the specification words it: each registration decides the
    messages on its own. The programs are those of the pairs that the
    check groups, and the lists of the result collect the messages of
    the programs. *)
Definition each_registration_decides_alone : Prop :=
  ∀ self fs config_files widget_name program_files report,
    program_files_of self fs config_files widget_name = Ok program_files →
    check_program_compatibility self fs config_files widget_name = Ok report →
    ∃ pairs,
      program_files = grouping pairs ∧
      single_config_warnings report
        = List.concat (List.map (warnings_for self) program_files) ∧
      multiple_config_info report
        = List.concat (List.map (infos_for self) program_files) ∧
      ∀ program_name,
        1 < length (contributing pairs program_name) →
        In (program_name, contributing pairs program_name) program_files ∧
        single_case self program_name (contributing pairs program_name) ∧
        multiple_case self program_name (contributing pairs program_name) ∧
        unregistered_case self program_name (contributing pairs program_name).

(** A rule file that also lists [alacritty] among the programs that
    support several configurations. *)
Definition overlapping_manager : Manager :=
  {| repo_path := ["repo"]; home := ["home"; "u"];
     config := default_config;
     single_config_only := default_single_config_only;
     supports_multiple_configs :=
       <[ "alacritty" :=
            {| message := "Alacritty can import further files.";
               suggestion := "Use the import key." |} ]>
       default_supports_multiple_configs |}.

Definition overlapping_files : list (Path * Path) :=
  [(["repo"; "term"; "plain"; "alacritty"; "a.yml"],
    ["home"; "u"; ".config"; "alacritty"]);
   (["repo"; "term"; "plain"; "alacritty"; "b.yml"],
    ["home"; "u"; ".config"; "alacritty"])].

(** ** Installer *)

(** The candidate backup names: the [k]-th carries the suffix [.k]. *)
Definition suffixed (dir : Path) (nm : string) (k : nat) : Path :=
  dir ++ [nm +:+ "." +:+ pretty k].

(** C6 as the specification words it: a successful install over an
    existing destination file, with backups enabled, saves the old
    content under a numeric suffix, the suffix starting at 1, at a path
    that was free, and changes no file but that backup and the
    destination. *)
Definition backup_suffix_as_stated : Prop :=
  ∀ self source_path target_dir d d' content,
    dry_run (config self) = false →
    backup_existing_flag (config self) = true →
    regular d !! (target_dir ++ [name source_path]) = Some content →
    is_dir d (target_dir ++ [name source_path]) = false →
    install_config self source_path target_dir d = (Ok true, d') →
    ∃ k, 1 ≤ k ∧
      path_exists d (suffixed (backup_dir self) (name source_path) k) = false ∧
      regular d' !! suffixed (backup_dir self) (name source_path) k
        = Some content ∧
      ∀ p, p ≠ suffixed (backup_dir self) (name source_path) k →
           p ≠ target_dir ++ [name source_path] →
           regular d' !! p = regular d !! p.

(** A home directory with an installed [a.conf] and no backup yet. *)
Definition example_disk : Disk :=
  {| regular :=
       {[ ["repo"; "term"; "plain"; "a"; "a.conf"] := "new";
          ["home"; "u"; ".config"; "a"; "a.conf"] := "old" ]};
     directories :=
       {[ ["home"]; ["home"; "u"]; ["home"; "u"; ".config"];
          ["home"; "u"; ".config"; "a"]; ["repo"]; ["repo"; "term"];
          ["repo"; "term"; "plain"]; ["repo"; "term"; "plain"; "a"] ]} |}.

(** The same home where [~/.config/b] is a regular file. *)
Definition blocked_disk : Disk :=
  {| regular :=
       {[ ["repo"; "term"; "plain"; "b"; "b.conf"] := "new b";
          ["repo"; "term"; "plain"; "a"; "a.conf"] := "new";
          ["home"; "u"; ".config"; "b"] := "in the way" ]};
     directories :=
       {[ ["home"]; ["home"; "u"]; ["home"; "u"; ".config"];
          ["repo"]; ["repo"; "term"]; ["repo"; "term"; "plain"];
          ["repo"; "term"; "plain"; "a"]; ["repo"; "term"; "plain"; "b"] ]} |}.

Definition blocked_files : list (Path * Path) :=
  [(["repo"; "term"; "plain"; "b"; "b.conf"], ["home"; "u"; ".config"; "b"]);
   (["repo"; "term"; "plain"; "a"; "a.conf"], ["home"; "u"; ".config"; "a"])].

Definition dry_run_manager : Manager :=
  {| repo_path := ["repo"]; home := ["home"; "u"];
     config := {| backup_existing_flag := true; create_backup_dir := true;
                  dry_run := true; custom_mappings := ∅ |};
     single_config_only := default_single_config_only;
     supports_multiple_configs := default_supports_multiple_configs |}.

(** ** Repository registry *)

(** Some character of the string is in the class [p]. *)
Fixpoint has_char (p : ascii → bool) (s : string) : bool :=
  match s with
  | EmptyString => false
  | String c s' => p c || has_char p s'
  end.

(** No white space at either end. *)
Definition trimmed (s : string) : Prop := Str.lstrip s = s ∧ Str.rstrip s = s.

(** A field that the line format stores as it is: no separator, no line
    break, no white space at either end. *)
Definition plain_field (s : string) : Prop :=
  has_char (Str.is_char "|") s = false ∧
  has_char is_newline s = false ∧
  trimmed s.

(** A tag that the line format stores as it is. *)
Definition plain_tag (s : string) : Prop :=
  has_char (Str.is_char "|") s = false ∧
  has_char (Str.is_char ",") s = false ∧
  has_char is_newline s = false.

Definition entry (name url description : string) (tags : list string)
    : RepoEntry :=
  {| repo_name := name; repo_url := url;
     repo_description := description; repo_tags := tags |}.

(** The text of a record without the line break that ends it. *)
Definition record_text (repo : RepoEntry) : string :=
  repo_name repo +:+ "|" +:+ repo_url repo +:+ "|" +:+
  repo_description repo +:+ "|" +:+ Str.join "," (repo_tags repo).

(** An entry of the registry already has the name or the URL. *)
Definition already_listed (st : Store) (name url : string) : Prop :=
  ∃ repo, In repo (load_repo_list st) ∧
          (repo_name repo = name ∨ repo_url repo = url).

(** C9 as the specification words it: every entry added is found again
    as it was, and a duplicate is rejected. *)
Definition every_entry_round_trips : Prop :=
  ∀ ext name url description tags fetch_metadata st,
    (∀ st', add_repo ext url description tags (Some name) fetch_metadata st
              = (true, st') →
            In (entry name url description tags) (load_repo_list st')) ∧
    (already_listed st name url →
     add_repo ext url description tags (Some name) fetch_metadata st
       = (false, st)).

Definition no_external : External :=
  {| extract_repo_name_from_url := λ _, "unknown-repo";
     fetch_repo_metadata := λ _ _, None |}.

Definition empty_store : Store :=
  {| repo_list_file := None; writable := true |}.

(** ** Further statements and example data *)

(** The keys of a fingerprint, in the order [detect_environment] sets
    them. *)
Definition fingerprint_keys : list string :=
  ["window_manager"; "compositor"; "shell"; "terminal"].

(** An entry as [load_repo_list] can produce it: plain fields, a name
    that does not open a comment, and tags that are either absent (a
    line of fewer than four fields) or the fields of a trimmed string. *)
Definition wf_tags (tags : list string) : Prop :=
  tags = [] ∨
  (Forall plain_tag tags ∧ trimmed (Str.join "," tags)).

Definition wf_entry (repo : RepoEntry) : Prop :=
  plain_field (repo_name repo) ∧
  Str.startswith (repo_name repo) "#" = false ∧
  plain_field (repo_url repo) ∧
  plain_field (repo_description repo) ∧
  wf_tags (repo_tags repo).

(** An entry as it is read back after it was saved: an empty tag list
    becomes the list of one empty tag. *)
Definition reloaded (repo : RepoEntry) : RepoEntry :=
  {| repo_name := repo_name repo; repo_url := repo_url repo;
     repo_description := repo_description repo;
     repo_tags := match repo_tags repo with [] => [EmptyString] | tags => tags end |}.

(** The registry read from a text. *)
Definition load_text (text : string) : list RepoEntry :=
  load_repo_list {| repo_list_file := Some text; writable := true |}.


(** What one run may do to a disk: directories are only added, and a
    path holds its old content unless it is now a file and [allowed]. *)
Definition touches_only (allowed : Path → Prop) (d d' : Disk) : Prop :=
  (∀ q, is_dir d q = true → is_dir d' q = true) ∧
  (∀ p, regular d' !! p = regular d !! p ∨
        (is_Some (regular d' !! p) ∧ allowed p)).

(* ================================================================= *)
(** * Part III: properties *)
(* ================================================================= *)

(** Facts about concrete inputs are settled by evaluation. *)
Ltac evaluate := vm_compute; reflexivity.

(** ** Strings *)

Lemma is_space_lower_char c : Str.is_space (Str.lower_char c) = Str.is_space c.
Proof. by destruct c as [[] [] [] [] [] [] [] []]. Qed.

Lemma truthy_lower s : Str.truthy (Str.lower s) = Str.truthy s.
Proof. by destruct s. Qed.

Lemma split_on_nonempty p s : Str.split_on p s ≠ [].
Proof.
  destruct s as [|c s]; simpl; [done|].
  destruct (p c); [done|]. by destruct (Str.split_on p s).
Qed.

Lemma split_on_space_lower s :
  Str.split_on Str.is_space (Str.lower s)
  = List.map Str.lower (Str.split_on Str.is_space s).
Proof.
  induction s as [|c s IH]; simpl; [done|].
  rewrite is_space_lower_char. destruct (Str.is_space c); simpl.
  - by rewrite <- IH.
  - fold (Str.lower s). rewrite IH.
    by destruct (Str.split_on Str.is_space s).
Qed.

Lemma split_ws_lower s :
  Str.split_ws (Str.lower s) = List.map Str.lower (Str.split_ws s).
Proof.
  unfold Str.split_ws. rewrite split_on_space_lower.
  induction (Str.split_on Str.is_space s) as [|w ws IH]; simpl; [done|].
  rewrite truthy_lower. destruct (Str.truthy w); simpl; by rewrite IH.
Qed.

Lemma existsb_map {A B} (f : A → B) (c : B → bool) (l : list A) :
  existsb c (List.map f l) = existsb (λ x, c (f x)) l.
Proof. induction l as [|x l IH]; simpl; [done|]. by rewrite IH. Qed.

Lemma split_ws_empty s : Str.truthy s = false → Str.split_ws s = [].
Proof. by destruct s. Qed.

(** ** Paths *)

Lemma name_snoc (p : Path) (x : string) : name (p ++ [x]) = x.
Proof. unfold name. apply List.last_last. Qed.

Lemma parent_snoc (p : Path) (x : string) : parent (p ++ [x]) = p.
Proof. unfold parent. apply List.removelast_last. Qed.

Lemma lookup_path_app fs p q :
  lookup_path fs (p ++ q) =
  match lookup_path fs p with Some n => lookup_path n q | None => None end.
Proof.
  revert fs. induction p as [|x p IH]; intros fs; simpl; [done|].
  destruct fs as [|cs]; [done|]. destruct (assoc x cs); [apply IH|done].
Qed.

(** ** Variant scorer *)

Section Scorer.

Variable fingerprint : list (string * string).

Lemma count_fold {A} (c : A → bool) (k : nat) (l : list A) (s0 : nat) :
  fold_left (λ s x, if c x then s + k else s) l s0
  = s0 + k * length (List.filter c l).
Proof.
  revert s0. induction l as [|x l IH]; intros s0; simpl; [lia|].
  rewrite IH. destruct (c x); simpl; lia.
Qed.

(** The score of the loop body is the reference score restricted to
    non-empty values. *)
Lemma config_score_spec nm :
  config_score fingerprint (Str.lower nm) = Spec.score_nonempty fingerprint nm.
Proof.
  unfold config_score, Spec.score_nonempty.
  rewrite (count_fold (λ kv : string * string,
    Str.truthy kv.2 &&
    existsb (λ part, Str.contains (Str.lower nm) part)
      (Str.split_ws (Str.lower kv.2))) 1).
  rewrite (count_fold (λ kv : string * string,
    Str.truthy kv.2 && Str.contains (Str.lower nm) (Str.lower kv.2)) 2).
  simpl. f_equal. rewrite Nat.add_0_r. f_equal.
  apply List.filter_ext. intros [k v]; simpl.
  unfold Spec.token_occurs_in, Spec.occurs_in.
  rewrite split_ws_lower, existsb_map.
  destruct (Str.truthy v) eqn:Hv; simpl; [done|].
  by rewrite (split_ws_empty v Hv).
Qed.

(** What the selection loop holds after a run over [l], started from
    the best variant [b] with score [s]. *)
Lemma select_loop_invariant (l : list Path) (b : option Path) (s : nat) :
  fold_left (select_step fingerprint) l (b, s) =
  (if s <? max_list (List.map (λ v, Spec.score_nonempty fingerprint (name v))
                       (List.filter (λ v, negb (Spec.is_default v)) l))
   then List.find
          (λ v, Spec.score_nonempty fingerprint (name v) =?
                s `max` max_list
                  (List.map (λ v, Spec.score_nonempty fingerprint (name v))
                     (List.filter (λ v, negb (Spec.is_default v)) l)))
          (List.filter (λ v, negb (Spec.is_default v)) l)
   else b,
   s `max` max_list (List.map (λ v, Spec.score_nonempty fingerprint (name v))
                       (List.filter (λ v, negb (Spec.is_default v)) l))).
Proof.
  revert b s. induction l as [|v l IH]; intros b s.
  { simpl. by rewrite Nat.max_0_r. }
  cbn [fold_left List.filter]. unfold select_step at 2.
  change (Spec.is_default v) with (String.eqb (name v) "default").
  destruct (String.eqb (name v) "default") eqn:Hd; cbn [negb].
  { apply IH. }
  rewrite config_score_spec. cbn [List.map List.find].
  repeat match goal with
  | |- context [max_list (?x :: ?l')] =>
      change (max_list (x :: l')) with (x `max` max_list l')
  end.
  set (sc := Spec.score_nonempty fingerprint (name v)).
  cbn [snd].
  destruct (s <? sc) eqn:Hs; rewrite IH;
    set (rest := max_list _).
  - apply Nat.ltb_lt in Hs.
    replace (s <? sc `max` rest) with true by (symmetry; apply Nat.ltb_lt; lia).
    replace (s `max` (sc `max` rest)) with (sc `max` rest) by lia.
    f_equal. destruct (sc <? rest) eqn:Hr.
    + apply Nat.ltb_lt in Hr.
      replace (sc =? sc `max` rest) with false
        by (symmetry; apply Nat.eqb_neq; lia).
      done.
    + apply Nat.ltb_ge in Hr.
      by replace (sc =? sc `max` rest) with true
        by (symmetry; apply Nat.eqb_eq; lia).
  - apply Nat.ltb_ge in Hs.
    replace (s `max` (sc `max` rest)) with (s `max` rest) by lia.
    f_equal. destruct (s <? rest) eqn:Hr.
    + apply Nat.ltb_lt in Hr.
      replace (s <? sc `max` rest) with true by (symmetry; apply Nat.ltb_lt; lia).
      by replace (sc =? s `max` rest) with false
        by (symmetry; apply Nat.eqb_neq; lia).
    + apply Nat.ltb_ge in Hr.
      by replace (s <? sc `max` rest) with false
        by (symmetry; apply Nat.ltb_ge; lia).
Qed.

(** An empty enumeration means that there is no [default] either. *)
Lemma no_configs_no_default self fs widget_name :
  find_widget_configs self fs widget_name = Ok [] →
  default_variant self fs widget_name = None.
Proof.
  unfold find_widget_configs, default_variant, exists_.
  rewrite lookup_path_app.
  destruct (lookup_path fs (joinpath (repo_path self) widget_name))
    as [[|items]|]; [done| |done].
  destruct (lookup_path (Dir items) ["default"]); [|done].
  intros [= H]. by apply app_nil in H as [_ ?].
Qed.

End Scorer.

(** C1, amended. [select_best_config] is the reference selection over the
    variants [find_widget_configs] enumerates, with the reference score
    in which only a non-empty fingerprint value earns the 2 points: the
    first variant other than [default] with the highest score when that
    score is above zero, else the [default] variant when it exists, else
    nothing. *)
Theorem select_best_config_is_reference self fs widget_name fingerprint :
  select_best_config self fs widget_name fingerprint =
  (variants ← find_widget_configs self fs widget_name;
   Ok (Spec.select (Spec.score_nonempty fingerprint) variants
         (default_variant self fs widget_name))).
Proof.
  unfold select_best_config.
  pose proof (no_configs_no_default self fs widget_name) as Hnone.
  destruct (find_widget_configs self fs widget_name) as [configs|e];
    simpl; [|done].
  destruct configs as [|v l].
  { by rewrite Hnone. }
  clear Hnone. rewrite select_loop_invariant. cbn [fst].
  unfold Spec.select, Spec.best_variant.
  set (candidates := List.filter _ (v :: l)).
  set (top := max_list _).
  rewrite Nat.max_0_l. unfold default_variant.
  destruct top as [|top]; simpl.
  - by destruct (exists_ fs _).
  - destruct (List.find _ candidates); [done|].
    by destruct (exists_ fs _).
Qed.

(** C1 as stated fails: an empty fingerprint value occurs in every name
    and earns the reference 2 points, while the loop skips it. *)
Lemma selector_is_not_reference : ¬ selector_is_reference.
Proof.
  intros H.
  specialize (H example_manager example_fs "term" [("shell", "")]).
  vm_compute in H. discriminate H.
Qed.

(** C2 as stated fails: the token bonus adds to the whole-value bonus. *)
Lemma example_scores_differ : ¬ example_scores_as_stated.
Proof. intros [H _]. vm_compute in H. discriminate H. Qed.

(** C2, amended. For the fingerprint
    [{window_manager: hyprland, shell: zsh}] and a widget whose variants
    are [hyprland-zsh], [hyprland] and [default], the loop scores
    [hyprland-zsh] 6 (2+2 for the whole values, 1+1 for their tokens),
    scores [hyprland] 3, and selects [hyprland-zsh]. *)
Theorem example_selection self fs widget_name :
  find_widget_configs self fs widget_name
  = Ok (example_variants (joinpath (repo_path self) widget_name)) →
  config_score example_fingerprint (Str.lower "hyprland-zsh") = 6 ∧
  config_score example_fingerprint (Str.lower "hyprland") = 3 ∧
  select_best_config self fs widget_name example_fingerprint
  = Ok (Some (joinpath (repo_path self) widget_name ++ ["hyprland-zsh"])).
Proof.
  intros H. split; [done|]. split; [done|].
  unfold select_best_config. rewrite H. simpl.
  unfold select_step. rewrite !name_snoc. by vm_compute.
Qed.

Lemma example_selection_witness :
  config_score example_fingerprint (Str.lower "hyprland-zsh") = 6 ∧
  config_score example_fingerprint (Str.lower "hyprland") = 3 ∧
  select_best_config example_manager example_fs "bar" example_fingerprint
  = Ok (Some ["repo"; "bar"; "hyprland-zsh"]).
Proof. apply (example_selection example_manager example_fs "bar"). reflexivity. Defined.

(** ** File classifier *)

Section Classifier.

Variables (self : Manager) (config_path : Path).

(** Induction on trees that reaches the children of a directory. *)
Fixpoint node_ind' (P : node → Prop) (HF : P File)
    (HD : ∀ cs, Forall (λ xc : string * node, P xc.2) cs → P (Dir cs))
    (n : node) : P n :=
  match n with
  | File => HF
  | Dir cs =>
      HD cs ((fix go (cs : list (string * node)) :=
                match cs return Forall (λ xc : string * node, P xc.2) cs with
                | [] => List.Forall_nil _
                | xc :: cs' =>
                    List.Forall_cons _ xc cs' (node_ind' P HF HD xc.2) (go cs')
                end) cs)
  end.

Lemma rglob_dir cs :
  rglob (Dir cs) =
  List.flat_map (λ xc : string * node,
    (([xc.1], xc.2) :: List.map (λ e, (xc.1 :: e.1, e.2)) (rglob xc.2))) cs.
Proof.
  induction cs as [|[x c] cs IH]; [done|].
  simpl in *. by rewrite IH.
Qed.

Lemma rglob_sound n parts c : In (parts, c) (rglob n) → entry_at n parts c.
Proof.
  revert parts c. induction n as [|cs IH] using node_ind'; intros parts c.
  { intros []. }
  rewrite rglob_dir, List.in_flat_map. intros ([x c0] & Hin & He).
  rewrite Forall_forall in IH.
  simpl in He. destruct He as [He|He].
  - injection He as <- <-. by constructor.
  - apply List.in_map_iff in He as ([p c1] & He & Hp).
    simpl in He. injection He as <- <-.
    apply entry_below with c0; [done|].
    apply (IH (x, c0)); [|done]. by apply list_elem_of_In.
Qed.

Lemma rglob_complete n parts c : entry_at n parts c → In (parts, c) (rglob n).
Proof.
  induction 1 as [cs x c Hin|cs x c parts c' Hin _ IH];
    rewrite rglob_dir, List.in_flat_map; exists (x, c); (split; [done|]); simpl.
  - by left.
  - right. apply List.in_map_iff. by exists (parts, c').
Qed.

Lemma entry_at_nonempty n parts c : entry_at n parts c → parts ≠ [].
Proof. by destruct 1. Qed.

(** The first child of each name is an entry. *)
Lemma lookup_path_entry n parts c :
  parts ≠ [] → lookup_path n parts = Some c → entry_at n parts c.
Proof.
  revert n. induction parts as [|x parts IH]; intros n Hne; [done|].
  simpl. destruct n as [|cs]; [done|].
  destruct (assoc x cs) as [c0|] eqn:Ha; [|done].
  assert (In (x, c0) cs) as Hin.
  { clear -Ha. induction cs as [|[k v] cs IH]; [done|]. simpl in Ha.
    destruct (String.eqb x k) eqn:Hk.
    - apply String.eqb_eq in Hk as ->. injection Ha as ->. by left.
    - right. by apply IH. }
  destruct parts as [|y parts].
  - simpl. intros [= ->]. by constructor.
  - intros H. apply entry_below with c0; [done|]. by apply IH.
Qed.

Lemma name_app (p q : Path) : q ≠ [] → name (p ++ q) = name q.
Proof.
  intros Hq. unfold name.
  destruct (List.exists_last Hq) as (q' & x & ->).
  by rewrite app_assoc, !List.last_last.
Qed.

(** One step of the walk appends the pair of the entry, or nothing. *)
Lemma classify_step_spec files e :
  e.1 ≠ [] →
  classify_step self config_path files e =
  files ++ (if is_file_node e.2 && negb (hidden e.1)
            then [(config_path ++ e.1, destination self config_path e.1)]
            else []).
Proof.
  intros Hne. unfold classify_step, hidden. rewrite (name_app _ _ Hne).
  destruct (is_file_node e.2 && negb (Str.startswith (name e.1) ".")).
  2: { by rewrite app_nil_r. }
  do 2 f_equal. f_equal. unfold destination.
  destruct e.1 as [|a [|b r]]; [done|done|]. simpl. unfold mapping.
  destruct (custom_mappings (config self) !! name (parent config_path))
    as [mappings|]; simpl; [|done].
  by destruct (mappings !! a).
Qed.

Lemma classify_fold (l : list (list string * node)) files :
  Forall (λ e, e.1 ≠ []) l →
  fold_left (classify_step self config_path) l files =
  files ++ List.flat_map (λ e,
    if is_file_node e.2 && negb (hidden e.1)
    then [(config_path ++ e.1, destination self config_path e.1)]
    else []) l.
Proof.
  revert files. induction l as [|e l IH]; intros files Hl; simpl.
  { by rewrite app_nil_r. }
  inversion Hl as [|? ? He Hl']; subst.
  rewrite IH, classify_step_spec, <- app_assoc; done.
Qed.

(** The pairs of [get_config_files] are the files of the tree that are
    not hidden, each with the destination of the specification. *)
Lemma get_config_files_spec fs n src dest :
  lookup_path fs config_path = Some n →
  In (src, dest) (get_config_files self fs config_path) ↔
  ∃ parts, entry_at n parts File ∧ hidden parts = false ∧
           src = config_path ++ parts ∧
           dest = destination self config_path parts.
Proof.
  intros Hn. unfold get_config_files. rewrite Hn.
  rewrite classify_fold.
  2: { apply Forall_forall. intros [p c] Hin. apply list_elem_of_In in Hin.
       by apply rglob_sound, entry_at_nonempty in Hin. }
  simpl. rewrite List.in_flat_map. split.
  - intros ([parts c] & Hin & Hx). simpl in Hx.
    destruct c; simpl in Hx; [|done].
    destruct (hidden parts) eqn:Hh; simpl in Hx; [done|].
    destruct Hx as [[= <- <-]|[]]. exists parts.
    by apply rglob_sound in Hin.
  - intros (parts & He & Hh & -> & ->). exists (parts, File).
    split; [by apply rglob_complete|]. simpl. rewrite Hh. by left.
Qed.

End Classifier.

(** C3. Every pair of [get_config_files] is a file of the variant tree
    that is not hidden; below a sub-directory its destination is
    [home_config] joined with the mapped name of the first segment, or
    with the first segment when the widget maps nothing for it; at the
    root it is [home_config] joined with the stem of the file name. A
    root file [config.toml] goes to [home_config/config], a file
    [alacritty/alacritty.yml] to [home_config/alacritty] without a
    mapping and to [home_config/<mapped name>] with one. *)
Theorem destination_mapping self fs config_path n :
  lookup_path fs config_path = Some n →
  (∀ src dest,
     In (src, dest) (get_config_files self fs config_path) →
     ∃ parts, entry_at n parts File ∧ hidden parts = false ∧
       src = config_path ++ parts ∧
       match parts with
       | program_name :: _ :: _ =>
           match mapping self config_path program_name with
           | Some mapped => dest = joinpath (home_config self) mapped
           | None => dest = joinpath (home_config self) program_name
           end
       | _ => dest = joinpath (home_config self) (stem (name src))
       end) ∧
  (entry_at n ["config.toml"] File →
   In (config_path ++ ["config.toml"], home_config self ++ ["config"])
      (get_config_files self fs config_path)) ∧
  (entry_at n ["alacritty"; "alacritty.yml"] File →
   match mapping self config_path "alacritty" with
   | Some mapped =>
       In (config_path ++ ["alacritty"; "alacritty.yml"],
           joinpath (home_config self) mapped)
          (get_config_files self fs config_path)
   | None =>
       In (config_path ++ ["alacritty"; "alacritty.yml"],
           home_config self ++ ["alacritty"])
          (get_config_files self fs config_path)
   end).
Proof.
  intros Hn. split; [|split].
  - intros src dest Hin.
    apply (get_config_files_spec _ _ _ _ _ _ Hn) in Hin
      as (parts & He & Hh & -> & ->).
    exists parts. repeat (split; [done|]).
    pose proof (entry_at_nonempty _ _ _ He) as Hne.
    destruct parts as [|a [|b r]]; [done| |]; simpl.
    + by rewrite name_snoc.
    + by destruct (mapping self config_path a).
  - intros He. apply (get_config_files_spec _ _ _ _ _ _ Hn).
    by exists ["config.toml"].
  - intros He.
    destruct (mapping self config_path "alacritty") as [mapped|] eqn:Hm;
      apply (get_config_files_spec _ _ _ _ _ _ Hn);
      exists ["alacritty"; "alacritty.yml"];
      (repeat (split; [done|])); unfold destination; by rewrite Hm.
Qed.

Lemma destination_mapping_witness :
  In (["repo"; "term"; "plain"; "config.toml"], ["home"; "u"; ".config"; "config"])
     (get_config_files example_manager example_fs ["repo"; "term"; "plain"]) ∧
  In (["repo"; "term"; "plain"; "alacritty"; "alacritty.yml"],
      ["home"; "u"; ".config"; "alacritty"])
     (get_config_files example_manager example_fs ["repo"; "term"; "plain"]).
Proof.
  destruct (destination_mapping example_manager example_fs
              ["repo"; "term"; "plain"] _ eq_refl) as (_ & Hroot & Hsub).
  split.
  - apply Hroot. by apply lookup_path_entry.
  - apply Hsub. by apply lookup_path_entry.
Defined.

(** C10. The hidden-file test looks at the file's own name only. A file
    of the variant tree whose own name does not start with a dot is
    classified, wherever it lies; when its first segment is a directory
    whose name starts with a dot and the widget maps nothing for it, that
    segment is its destination program name. A file whose own name starts
    with a dot is in no pair. *)
Theorem hidden_test_uses_own_name self fs config_path n parts :
  lookup_path fs config_path = Some n →
  entry_at n parts File →
  (Str.startswith (name parts) "." = false →
   In (config_path ++ parts, destination self config_path parts)
      (get_config_files self fs config_path)) ∧
  (Str.startswith (name parts) "." = false →
   ∀ segment rest,
     parts = segment :: rest → rest ≠ [] →
     Str.startswith segment "." = true →
     mapping self config_path segment = None →
     In (config_path ++ parts, joinpath (home_config self) segment)
        (get_config_files self fs config_path)) ∧
  (Str.startswith (name parts) "." = true →
   ∀ dest, ¬ In (config_path ++ parts, dest)
               (get_config_files self fs config_path)).
Proof.
  intros Hn He. split; [|split].
  - intros Hh. apply (get_config_files_spec _ _ _ _ _ _ Hn). by exists parts.
  - intros Hh segment rest -> Hrest _ Hm.
    apply (get_config_files_spec _ _ _ _ _ _ Hn).
    exists (segment :: rest). repeat (split; [done|]).
    destruct rest as [|b r]; [done|]. unfold destination. by rewrite Hm.
  - intros Hh dest Hin.
    apply (get_config_files_spec _ _ _ _ _ _ Hn) in Hin
      as (parts' & _ & Hh' & Heq & _).
    apply app_inv_head in Heq as <-. unfold hidden in Hh'. congruence.
Qed.

Lemma hidden_test_uses_own_name_witness :
  In (["repo"; "term"; "plain"; ".cache"; "state"], ["home"; "u"; ".config"; ".cache"])
     (get_config_files example_manager example_fs ["repo"; "term"; "plain"]).
Proof.
  assert (entry_at plain_variant [".cache"; "state"] File) as He.
  { by apply lookup_path_entry. }
  destruct (hidden_test_uses_own_name example_manager example_fs
              ["repo"; "term"; "plain"] _ [".cache"; "state"] eq_refl He)
    as (_ & Hdot & _).
  apply (Hdot eq_refl ".cache" ["state"]); done.
Defined.

(** ** Compatibility conflict detector *)

Section Detector.

Variable self : Manager.

Lemma prefix_app x b : String.prefix x (x +:+ b) = true.
Proof.
  induction x as [|c x IH]; simpl; [by destruct b|].
  by destruct (Ascii.ascii_dec c c).
Qed.

Lemma contains_prefix s x : String.prefix x s = true → Str.contains s x = true.
Proof. destruct s; simpl; by intros ->. Qed.

Lemma contains_app a x b : Str.contains (a +:+ x +:+ b) x = true.
Proof.
  induction a as [|c a IH].
  - change (Str.contains (x +:+ b) x = true). apply contains_prefix, prefix_app.
  - simpl. rewrite IH. by rewrite orb_true_r.
Qed.

Lemma first_occurrences_snoc l k :
  first_occurrences (l ++ [k]) =
  first_occurrences l ++ (if bool_decide (k ∈ l) then [] else [k]).
Proof.
  induction l as [|x l IH]; simpl; [done|].
  rewrite IH, List.filter_app. f_equal. f_equal.
  destruct (decide (k = x)) as [->|Hne].
  - rewrite (bool_decide_eq_true_2 (x ∈ x :: l)) by left.
    destruct (bool_decide (x ∈ l)); simpl; [done|].
    by rewrite String.eqb_refl.
  - destruct (bool_decide (k ∈ l)) eqn:Hk.
    + rewrite (bool_decide_eq_true_2 (k ∈ x :: l)); [done|].
      right. by apply bool_decide_eq_true in Hk.
    + rewrite (bool_decide_eq_false_2 (k ∈ x :: l)).
      * simpl. by apply String.eqb_neq in Hne as ->.
      * apply bool_decide_eq_false in Hk. by intros [?|?]%elem_of_cons.
Qed.

Lemma first_occurrences_elem l k : k ∈ first_occurrences l ↔ k ∈ l.
Proof.
  induction l as [|x l IH]; simpl; [done|].
  rewrite !elem_of_cons, <- IH, list_elem_of_In, List.filter_In,
    <- list_elem_of_In, negb_true_iff, String.eqb_neq.
  destruct (decide (k = x)); tauto.
Qed.

Lemma first_occurrences_NoDup l : NoDup (first_occurrences l).
Proof.
  induction l as [|x l IH]; simpl; [constructor|].
  constructor.
  - rewrite list_elem_of_In, List.filter_In, negb_true_iff, String.eqb_neq.
    tauto.
  - clear -IH. induction IH as [|y ys Hy _ IH']; simpl; [constructor|].
    destruct (negb (String.eqb y x)); [|done].
    constructor; [|done].
    rewrite list_elem_of_In, List.filter_In, <- list_elem_of_In. tauto.
Qed.

Lemma contributing_snoc pairs pair k :
  contributing (pairs ++ [pair]) k =
  contributing pairs k ++ (if String.eqb (program_of pair) k then [pair] else []).
Proof. unfold contributing. by rewrite List.filter_app. Qed.

Lemma contributing_none pairs k :
  k ∉ List.map program_of pairs → contributing pairs k = [].
Proof.
  induction pairs as [|p pairs IH]; simpl; [done|].
  rewrite not_elem_of_cons. intros [Hne Hk].
  apply not_eq_sym, String.eqb_neq in Hne as ->. by apply IH.
Qed.

(** Appending to the dictionary of a grouping, key by key. *)
Lemma dict_append_grouped pairs pair (ks : list string) :
  NoDup ks →
  dict_append (program_of pair) pair
    (List.map (λ k, (k, contributing pairs k)) ks) =
  List.map (λ k, (k, contributing (pairs ++ [pair]) k)) ks
  ++ (if bool_decide (program_of pair ∈ ks) then []
      else [(program_of pair, [pair])]).
Proof.
  induction 1 as [|k ks Hk Hnd IH]; simpl; [done|].
  rewrite contributing_snoc, (String.eqb_sym (program_of pair) k).
  destruct (String.eqb k (program_of pair)) eqn:E.
  - apply String.eqb_eq in E as ->.
    rewrite (bool_decide_eq_true_2 (program_of pair ∈ program_of pair :: ks))
      by left.
    rewrite app_nil_r.
    f_equal. apply List.map_ext_in. intros k' Hin.
    rewrite contributing_snoc.
    assert (k' ≠ program_of pair) as Hne.
    { intros ->. by apply list_elem_of_In in Hin. }
    apply not_eq_sym, String.eqb_neq in Hne as ->. by rewrite app_nil_r.
  - rewrite app_nil_r, IH. simpl. f_equal. f_equal.
    apply String.eqb_neq in E.
    destruct (bool_decide (program_of pair ∈ ks)) eqn:Hin.
    + rewrite (bool_decide_eq_true_2 (program_of pair ∈ k :: ks)); [done|].
      right. by apply bool_decide_eq_true in Hin.
    + rewrite (bool_decide_eq_false_2 (program_of pair ∈ k :: ks)); [done|].
      apply bool_decide_eq_false in Hin. intros [?|?]%elem_of_cons; done.
Qed.

(** The dictionary the grouping loop builds is the grouping of the
    specification. *)
Lemma group_loop_spec pairs : fold_left group_step pairs [] = grouping pairs.
Proof.
  induction pairs as [|pair pairs IH] using rev_ind; [done|].
  rewrite fold_left_app. simpl. rewrite IH. unfold group_step, grouping.
  fold (program_of pair).
  rewrite dict_append_grouped by apply first_occurrences_NoDup.
  rewrite List.map_app. simpl. rewrite first_occurrences_snoc, List.map_app.
  f_equal. rewrite (bool_decide_ext _ _ (first_occurrences_elem _ _)).
  destruct (bool_decide (program_of pair ∈ List.map program_of pairs)) eqn:E;
    [done|].
  simpl. rewrite contributing_snoc, String.eqb_refl.
  rewrite contributing_none; [done|]. by apply bool_decide_eq_false in E.
Qed.

(** The nested loops over the variants and their files visit the
    concatenation of the classified files. *)
Lemma group_all_variants (f : Path → list (Path * Path)) (configs : list Path) acc :
  fold_left (λ all_program_files config_path,
    fold_left group_step (f config_path) all_program_files) configs acc
  = fold_left group_step (List.concat (List.map f configs)) acc.
Proof.
  revert acc. induction configs as [|c configs IH]; intros acc; simpl; [done|].
  by rewrite IH, fold_left_app.
Qed.

Lemma contains_skip a s x :
  Str.contains s x = true → Str.contains (a +:+ s) x = true.
Proof.
  intros H. induction a as [|c a IH]; simpl; [done|].
  by rewrite IH, orb_true_r.
Qed.

Lemma contains_here x b : Str.contains (x +:+ b) x = true.
Proof. apply contains_prefix, prefix_app. Qed.

(** A step of the report loop adds its messages at the end. *)
Lemma report_step_adds warnings entry :
  report_step self warnings entry =
  {| single_config_warnings :=
       single_config_warnings warnings ++ warnings_for self entry;
     multiple_config_info :=
       multiple_config_info warnings ++ infos_for self entry |}.
Proof.
  unfold warnings_for, infos_for, report_step.
  destruct warnings as [ws infos]. simpl.
  destruct (1 <? length entry.2); simpl.
  2: { by rewrite !app_nil_r. }
  destruct (single_config_only self !! entry.1) as [rule|]; simpl.
  { rewrite app_nil_r. f_equal. destruct (List.map file_detail entry.2); simpl.
    - done.
    - by rewrite <- app_assoc. }
  destruct (supports_multiple_configs self !! entry.1); simpl;
    by rewrite !app_nil_r.
Qed.

Lemma report_loop_spec program_files warnings :
  fold_left (report_step self) program_files warnings =
  {| single_config_warnings :=
       single_config_warnings warnings
       ++ List.concat (List.map (warnings_for self) program_files);
     multiple_config_info :=
       multiple_config_info warnings
       ++ List.concat (List.map (infos_for self) program_files) |}.
Proof.
  revert warnings.
  induction program_files as [|entry l IH]; intros warnings; simpl.
  { destruct warnings. simpl. by rewrite !app_nil_r. }
  rewrite IH, report_step_adds. simpl. by rewrite <- !app_assoc.
Qed.

Lemma single_case_holds program_name files :
  1 < length files → single_case self program_name files.
Proof.
  intros Hlen [rule Hrule]. unfold warnings_for, infos_for, report_step.
  simpl. rewrite Hrule.
  destruct files as [|pair files]; [simpl in Hlen; lia|].
  apply Nat.ltb_lt in Hlen as ->. simpl.
  split; [|done].
  exists (warning_sign +:+ "  " +:+ Str.upper program_name +:+ ": "
            +:+ message rule),
         ("   " +:+ bulb_sign +:+ " Suggestion: " +:+ suggestion rule).
  split; [done|].
  apply contains_skip, contains_skip, contains_here.
Qed.

Lemma multiple_case_holds program_name files :
  1 < length files →
  single_config_only self !! program_name = None →
  multiple_case self program_name files.
Proof.
  intros Hlen Hnone [rule Hrule]. unfold warnings_for, infos_for, report_step.
  simpl. apply Nat.ltb_lt in Hlen as ->. rewrite Hnone, Hrule. simpl.
  split; [done|].
  exists (info_sign +:+ "  " +:+ Str.upper program_name +:+ ": "
            +:+ message rule),
         ("   " +:+ bulb_sign +:+ " Suggestion: " +:+ suggestion rule).
  split; [done|].
  apply contains_skip, contains_skip, contains_here.
Qed.

Lemma unregistered_case_holds program_name files :
  unregistered_case self program_name files.
Proof.
  intros Hs Hm. unfold warnings_for, infos_for, report_step. simpl.
  rewrite Hs, Hm. by destruct (1 <? length files).
Qed.

(** A program with contributing files has its entry in the grouping. *)
Lemma grouping_entry pairs program_name :
  1 < length (contributing pairs program_name) →
  In (program_name, contributing pairs program_name) (grouping pairs).
Proof.
  intros Hlen. unfold grouping. apply List.in_map_iff.
  exists program_name. split; [done|].
  apply list_elem_of_In, first_occurrences_elem.
  destruct (decide (program_name ∈ List.map program_of pairs)) as [|Hno];
    [done|].
  rewrite (contributing_none _ _ Hno) in Hlen. simpl in Hlen. lia.
Qed.

(** The check always reports on the grouping of some list of pairs. *)
Lemma program_files_grouped fs config_files widget_name program_files :
  program_files_of self fs config_files widget_name = Ok program_files →
  ∃ pairs, program_files = grouping pairs.
Proof.
  unfold program_files_of. rewrite group_loop_spec.
  destruct widget_name as [w|].
  2: { intros [= <-]. by eexists. }
  destruct (Str.truthy w).
  2: { intros [= <-]. by eexists. }
  destruct (find_widget_configs self fs w) as [all_configs|e]; simpl; [|done].
  rewrite group_all_variants, group_loop_spec.
  destruct (1 <? length all_configs); intros [= <-]; by eexists.
Qed.

End Detector.

(** C4, amended. The check reports on the grouping of some list of
    pairs, and the lists of its result are the messages of the programs
    of that grouping, in its order. For every program with more than one
    contributing file: registered under [single_config_only], the
    warnings receive a warning string that contains the program name in
    upper case, a suggestion, and a line per conflicting file, and the
    informational list receives nothing; registered under
    [supports_multiple_configs] and not under [single_config_only], the
    informational list receives an info string with the upper-case name
    and a suggestion, and the warnings receive nothing; registered under
    neither, no message is produced. *)
Theorem conflict_report self fs config_files widget_name program_files report :
  program_files_of self fs config_files widget_name = Ok program_files →
  check_program_compatibility self fs config_files widget_name = Ok report →
  ∃ pairs,
    program_files = grouping pairs ∧
    single_config_warnings report
      = List.concat (List.map (warnings_for self) program_files) ∧
    multiple_config_info report
      = List.concat (List.map (infos_for self) program_files) ∧
    ∀ program_name,
      1 < length (contributing pairs program_name) →
      In (program_name, contributing pairs program_name) program_files ∧
      single_case self program_name (contributing pairs program_name) ∧
      (single_config_only self !! program_name = None →
       multiple_case self program_name (contributing pairs program_name)) ∧
      unregistered_case self program_name (contributing pairs program_name).
Proof.
  intros Hg. unfold check_program_compatibility. rewrite Hg. simpl.
  rewrite report_loop_spec. intros [= <-]. simpl.
  destruct (program_files_grouped _ _ _ _ _ Hg) as [pairs ->].
  exists pairs. split; [done|]. split; [done|]. split; [done|].
  intros program_name Hlen. split; [|split; [|split]].
  - by apply grouping_entry.
  - by apply single_case_holds.
  - intros Hnone. by apply multiple_case_holds.
  - apply unregistered_case_holds.
Qed.

Lemma conflict_report_witness :
  ∃ report,
    check_program_compatibility example_manager example_fs
      overlapping_files None = Ok report ∧
    length (single_config_warnings report) = 5 ∧
    multiple_config_info report = [].
Proof.
  eexists. split; [reflexivity|].
  destruct (conflict_report example_manager example_fs overlapping_files
              None _ _ eq_refl eq_refl) as (pairs & _ & Hw & Hi & _).
  rewrite Hw, Hi. by vm_compute.
Defined.

(** C4 as stated fails for a program registered under both kinds: it is
    reported as a single-configuration program. *)
Lemma overlapping_registration_warns : ¬ each_registration_decides_alone.
Proof.
  intros H.
  destruct (H overlapping_manager example_fs overlapping_files None
              _ _ eq_refl eq_refl) as (pairs & Hpairs & _ & _ & Hcases).
  assert (grouping overlapping_files = grouping pairs) as Hg by exact Hpairs.
  assert (contributing pairs "alacritty" = overlapping_files) as Hc.
  { assert (In ("alacritty", overlapping_files) (grouping pairs)) as Hin.
    { rewrite <- Hg. by left. }
    apply List.in_map_iff in Hin as (k & [= -> <-] & _). done. }
  destruct (Hcases "alacritty") as (_ & _ & Hmulti & _).
  { rewrite Hc. simpl. lia. }
  rewrite Hc in Hmulti.
  destruct Hmulti as [Hw _]; [by eexists|]. vm_compute in Hw. discriminate Hw.
Qed.

(** C5. With a widget name and more than one variant of that widget,
    [check_program_compatibility] reports on the grouping of the
    classified files of all its variants taken together; with at most
    one variant it reports on the grouping of the pairs passed in. *)
Theorem grouping_rederived self fs config_files widget_name all_configs :
  Str.truthy widget_name = true →
  find_widget_configs self fs widget_name = Ok all_configs →
  (1 < length all_configs →
   program_files_of self fs config_files (Some widget_name) =
   Ok (grouping
         (List.concat (List.map (get_config_files self fs) all_configs)))) ∧
  (length all_configs ≤ 1 →
   program_files_of self fs config_files (Some widget_name) =
   Ok (grouping config_files)).
Proof.
  intros Hw Hall. unfold program_files_of. rewrite Hw, Hall. simpl.
  rewrite group_all_variants, !group_loop_spec.
  split; intros Hlen.
  - by apply Nat.ltb_lt in Hlen as ->.
  - by apply Nat.ltb_ge in Hlen as ->.
Qed.

Lemma grouping_rederived_witness :
  program_files_of example_manager example_fs
    (get_config_files example_manager example_fs ["repo"; "term"; "light"])
    (Some "term") =
  Ok (grouping
        (get_config_files example_manager example_fs ["repo"; "term"; "plain"]
         ++ get_config_files example_manager example_fs ["repo"; "term"; "light"])).
Proof.
  destruct (grouping_rederived example_manager example_fs
    (get_config_files example_manager example_fs ["repo"; "term"; "light"])
    "term" [["repo"; "term"; "plain"]; ["repo"; "term"; "light"]]
    eq_refl eq_refl) as [Hmany _].
  rewrite Hmany by (simpl; lia). reflexivity.
Defined.

(** ** Installer *)

Section Installer.

Variable self : Manager.

Lemma suffixed_inj dir nm : Inj (=) (=) (suffixed dir nm).
Proof.
  intros j k H. unfold suffixed in H.
  apply app_inv_head in H. injection H as H.
  apply (inj (String.app nm)) in H. apply (inj (String.app ".")) in H.
  by apply (inj pretty) in H.
Qed.

Lemma suffixed_nonempty dir nm k : suffixed dir nm k ≠ [].
Proof. unfold suffixed. by destruct dir. Qed.

(** What the loop returns was free, and every candidate before it was
    taken. *)
Lemma backup_loop_spec fuel d dir nm cur c bp :
  backup_loop fuel d dir nm cur c = Some bp →
  path_exists d bp = false ∧
  (bp = cur ∨
   ∃ k, c ≤ k ∧ bp = suffixed dir nm k ∧ path_exists d cur = true ∧
        ∀ j, c ≤ j < k → path_exists d (suffixed dir nm j) = true).
Proof.
  revert cur c. induction fuel as [|fuel IH]; intros cur c; simpl; [done|].
  destruct (path_exists d cur) eqn:Hcur.
  2: { intros [= <-]. split; [done|]. by left. }
  intros H. apply IH in H as [Hfree Hcases]. split; [done|]. right.
  destruct Hcases as [->|(k & Hk & -> & Hc & Hbefore)].
  - exists c. split; [lia|]. split; [done|]. split; [done|]. intros j Hj. lia.
  - exists k. split; [lia|]. split; [done|]. split; [done|].
    intros j Hj. destruct (decide (j = c)) as [->|]; [done|].
    apply Hbefore. lia.
Qed.

(** A loop that runs out of fuel has met a taken path at every step. *)
Lemma backup_loop_none fuel d dir nm cur c :
  backup_loop (S fuel) d dir nm cur c = None →
  ∀ j, c ≤ j < c + fuel → path_exists d (suffixed dir nm j) = true.
Proof.
  revert cur c. induction fuel as [|fuel IH]; intros cur c.
  { intros _ j Hj. lia. }
  intros H j Hj. cbn [backup_loop] in H.
  destruct (path_exists d cur); [|done].
  fold (suffixed dir nm c) in H.
  destruct (path_exists d (suffixed dir nm c)) eqn:Hc; [|done].
  destruct (decide (j = c)) as [->|]; [done|].
  apply (IH (suffixed dir nm c) (S c)); [|lia].
  cbn [backup_loop]. by rewrite Hc.
Qed.

(** The paths that exist, apart from the root, are among the files and
    the directories of the disk. *)
Lemma path_exists_elem d p :
  p ≠ [] → path_exists d p = true → p ∈ dom (regular d) ∪ directories d.
Proof.
  intros Hp. unfold path_exists, is_file, is_dir.
  rewrite orb_true_iff, !bool_decide_eq_true, elem_of_union, elem_of_dom.
  tauto.
Qed.

(** The loop of [backup_existing] stops: more candidates are tried than
    there are paths on the disk. *)
Lemma backup_loop_terminates d dir nm :
  is_Some (backup_loop (S (S (disk_size d))) d dir nm (dir ++ [nm]) 1).
Proof.
  destruct (backup_loop _ d dir nm (dir ++ [nm]) 1) eqn:H; [by eexists|].
  exfalso. pose proof (backup_loop_none _ _ _ _ _ _ H) as Htaken.
  set (n := S (disk_size d)) in *.
  set (candidates := suffixed dir nm <$> seq 1 n).
  assert (NoDup candidates) as Hnd.
  { apply (NoDup_fmap_2 _ (Inj0 := suffixed_inj dir nm)). apply NoDup_seq. }
  assert (list_to_set candidates ⊆ dom (regular d) ∪ directories d) as Hsub.
  { intros p Hp. apply elem_of_list_to_set, list_elem_of_fmap in Hp
      as (j & -> & Hj).
    apply elem_of_seq in Hj.
    apply path_exists_elem; [apply suffixed_nonempty|]. apply Htaken. lia. }
  apply subseteq_size in Hsub.
  rewrite size_list_to_set in Hsub by done.
  unfold candidates in Hsub. rewrite length_fmap, length_seq in Hsub.
  pose proof (size_union_alt (dom (regular d)) (directories d)) as Hu.
  pose proof (subseteq_size (directories d ∖ dom (regular d)) (directories d))
    as Hd.
  rewrite size_dom in Hu. unfold n, disk_size in Hsub.
  assert (directories d ∖ dom (regular d) ⊆ directories d) as Hs.
  { intros p Hp. by apply elem_of_difference in Hp as [? _]. }
  specialize (Hd Hs). lia.
Qed.

Lemma free_backup_path_spec d dir nm :
  path_exists d (free_backup_path d dir nm) = false ∧
  (free_backup_path d dir nm = dir ++ [nm] ∨
   ∃ k, 1 ≤ k ∧ free_backup_path d dir nm = suffixed dir nm k ∧
        path_exists d (dir ++ [nm]) = true ∧
        ∀ j, 1 ≤ j < k → path_exists d (suffixed dir nm j) = true).
Proof.
  unfold free_backup_path.
  destruct (backup_loop_terminates d dir nm) as [bp Hbp]. rewrite Hbp. simpl.
  by apply backup_loop_spec in Hbp.
Qed.

Lemma is_dir_true d p : is_dir d p = true ↔ p = [] ∨ p ∈ directories d.
Proof. unfold is_dir. by rewrite bool_decide_eq_true. Qed.

Lemma is_file_true d p : is_file d p = true ↔ is_Some (regular d !! p).
Proof. unfold is_file. by rewrite bool_decide_eq_true. Qed.

Lemma prefixes_length p q : q ∈ prefixes p → length q ≤ length p.
Proof.
  revert q. induction p as [|x p IH]; intros q; simpl.
  { by intros ?%elem_of_nil. }
  intros [->|Hq]%elem_of_cons; simpl; [lia|].
  apply list_elem_of_fmap in Hq as (q' & -> & Hq'). simpl.
  apply IH in Hq'. lia.
Qed.

Lemma mkdir_parents_ok p d u d1 :
  mkdir_parents p d = (Ok u, d1) →
  regular d1 = regular d ∧
  directories d1 = directories d ∪ list_to_set (prefixes p).
Proof.
  unfold mkdir_parents. destruct (is_file d p); [done|].
  destruct (existsb (is_file d) (prefixes p)); [done|]. by intros [= _ <-].
Qed.

Lemma mkdir_ok p d u d1 :
  mkdir p d = (Ok u, d1) →
  regular d1 = regular d ∧
  ∀ q, is_dir d1 q = true ↔ is_dir d q = true ∨ (q = p ∧ is_file d p = false).
Proof.
  unfold mkdir. destruct (is_dir d p) eqn:Hd.
  { intros [= _ <-]. split; [done|]. intros q. split; [by left|].
    intros [?|[-> _]]; done. }
  destruct (is_file d p) eqn:Hf; [done|].
  destruct (existsb (is_file d) (prefixes p)); [done|].
  destruct (is_dir d (parent p)); [|done].
  intros [= _ <-]. split; [done|]. intros q.
  rewrite !is_dir_true. simpl. rewrite elem_of_union, elem_of_singleton. tauto.
Qed.

Lemma copy2_spec src dst d d2 :
  copy2 src dst d = Some d2 → is_dir d dst = false →
  dst ≠ src ∧
  ∃ c, regular d !! src = Some c ∧
       d2 = {| regular := <[dst := c]> (regular d);
               directories := directories d |}.
Proof.
  unfold copy2. intros H Hdst. rewrite Hdst in H.
  destruct (regular d !! src) as [c|]; [|done].
  case_bool_decide; [done|]. simpl in H. rewrite Hdst in H.
  destruct (negb (is_dir d (parent dst))); [done|].
  injection H as <-. split; [done|]. by exists c.
Qed.

(** A successful backup of an existing file writes its content to a path
    that was free and creates at most the backup directory. *)
Lemma backup_existing_spec target_path d d2 content :
  backup_existing_flag (config self) = true →
  regular d !! target_path = Some content →
  backup_existing self target_path d = (Ok true, d2) →
  ∃ bp,
    (bp = backup_dir self ++ [name target_path] ∨
     ∃ k, 1 ≤ k ∧ bp = suffixed (backup_dir self) (name target_path) k ∧
          path_exists d2 (backup_dir self ++ [name target_path]) = true ∧
          ∀ j, 1 ≤ j < k →
               path_exists d2 (suffixed (backup_dir self) (name target_path) j)
               = true) ∧
    path_exists d bp = false ∧
    regular d2 = <[bp := content]> (regular d) ∧
    ∀ q, is_dir d2 q = true ↔
         is_dir d q = true ∨
         (create_backup_dir (config self) = true ∧ q = backup_dir self ∧
          is_file d q = false).
Proof.
  intros Hflag Hcontent. unfold backup_existing.
  assert (is_file d target_path = true) as Hfile.
  { apply is_file_true. by eexists. }
  unfold path_exists at 1. rewrite Hfile, Hflag. simpl.
  set (made := if create_backup_dir (config self) then _ else _).
  assert (∀ u d1, made = (Ok u, d1) →
            regular d1 = regular d ∧
            ∀ q, is_dir d1 q = true ↔
                 is_dir d q = true ∨
                 (create_backup_dir (config self) = true ∧
                  q = backup_dir self ∧ is_file d q = false)) as Hmade.
  { subst made. intros u d1. destruct (create_backup_dir (config self)).
    - intros [Hr Hq]%mkdir_ok. split; [done|]. intros q. rewrite Hq.
      split; (intros [?|H]; [by left|right]).
      + destruct H as [-> ?]. done.
      + destruct H as (_ & -> & ?). done.
    - intros [= _ <-]. split; [done|]. intros q. split; [by left|].
      by intros [?|(? & _)]. }
  destruct made as [[u|e] d1]; [|done].
  destruct (Hmade u d1 eq_refl) as [Hreg Hdirs]. clear Hmade.
  destruct (free_backup_path_spec d1 (backup_dir self) (name target_path))
    as [Hfree Hnaming].
  set (bp := free_backup_path d1 (backup_dir self) (name target_path)) in *.
  destruct (copy2 target_path bp d1) as [d2'|] eqn:Hcopy; [|done].
  intros [= <-].
  apply copy2_spec in Hcopy as (_ & c & Hc & ->).
  2: { unfold path_exists in Hfree. by apply orb_false_iff in Hfree as [_ ?]. }
  rewrite Hreg, Hcontent in Hc. injection Hc as <-.
  assert (∀ q, path_exists d1 q = true →
            path_exists {| regular := <[bp := content]> (regular d1);
                           directories := directories d1 |} q = true) as Hmono.
  { intros q. unfold path_exists, is_file, is_dir. simpl.
    rewrite !orb_true_iff, !bool_decide_eq_true. intros [Hq|Hq]; [left|by right].
    destruct (decide (bp = q)) as [->|Hne].
    - rewrite lookup_insert_eq. by eexists.
    - by rewrite lookup_insert_ne. }
  exists bp. split; [|split; [|split]].
  - destruct Hnaming as [?|(k & Hk & ? & Hplain & Hbefore)]; [by left|right].
    exists k. split; [done|]. split; [done|]. split; [by apply Hmono|].
    intros j Hj. by apply Hmono, Hbefore.
  - unfold path_exists in *. apply orb_false_iff in Hfree as [Hf Hd].
    apply orb_false_iff. split.
    + unfold is_file in *. by rewrite <- Hreg.
    + destruct (is_dir d bp) eqn:E; [|done].
      rewrite <- Hd. symmetry. apply Hdirs. by left.
  - simpl. by rewrite Hreg.
  - intros q. rewrite <- Hdirs. unfold is_dir. by simpl.
Qed.

End Installer.

(** C6, amended. A successful install over an existing destination file,
    with backups enabled, saves the old content in the backup directory
    under the original file name when that name is free there, and
    otherwise under the first of the names with suffix [.1], [.2], ...
    that is free. The backup path did not exist before, and no file but
    that backup and the destination changes: one new backup file, and no
    earlier backup overwritten. *)
Theorem backup_is_fresh self source_path target_dir d d' content :
  dry_run (config self) = false →
  backup_existing_flag (config self) = true →
  regular d !! (target_dir ++ [name source_path]) = Some content →
  is_dir d (target_dir ++ [name source_path]) = false →
  install_config self source_path target_dir d = (Ok true, d') →
  ∃ bp,
    (bp = backup_dir self ++ [name source_path] ∨
     ∃ k, 1 ≤ k ∧ bp = suffixed (backup_dir self) (name source_path) k ∧
          path_exists d' (backup_dir self ++ [name source_path]) = true ∧
          ∀ j, 1 ≤ j < k →
               path_exists d' (suffixed (backup_dir self) (name source_path) j)
               = true) ∧
    path_exists d bp = false ∧
    regular d' !! bp = Some content ∧
    ∀ p, p ≠ bp → p ≠ target_dir ++ [name source_path] →
         regular d' !! p = regular d !! p.
Proof.
  intros Hdry Hflag Hcontent Hnodir. unfold install_config.
  rewrite Hdry, parent_snoc.
  set (target_path := target_dir ++ [name source_path]) in *.
  destruct (mkdir_parents target_dir d) as [[u|e] d1] eqn:Hmk; [|done].
  apply mkdir_parents_ok in Hmk as [Hreg1 Hdirs1].
  destruct (backup_existing self target_path d1) as [[[|]|e] d2] eqn:Hb;
    [|done|done].
  apply (backup_existing_spec _ _ _ _ content) in Hb; [|done|by rewrite Hreg1].
  destruct Hb as (bp & Hnaming & Hfree & Hreg2 & Hdirs2).
  replace (name target_path) with (name source_path) in *
    by (symmetry; apply name_snoc).
  destruct (copy2 source_path target_path d2) as [d3|] eqn:Hcopy; [|done].
  intros [= <-].
  assert (is_file d1 target_path = true) as Hfile1.
  { apply is_file_true. rewrite Hreg1. exists content. exact Hcontent. }
  assert (is_dir d2 target_path = false) as Hnodir2.
  { destruct (is_dir d2 target_path) eqn:E; [|done].
    apply Hdirs2 in E as [E|(_ & _ & E)]; [|congruence].
    apply is_dir_true in E as [E|E].
    { unfold target_path in E. by destruct target_dir. }
    rewrite Hdirs1, elem_of_union, elem_of_list_to_set in E.
    destruct E as [E|E].
    - assert (is_dir d target_path = true) as E' by (apply is_dir_true; by right).
      congruence.
    - apply prefixes_length in E. unfold target_path in E.
      rewrite length_app in E. simpl in E. lia. }
  apply copy2_spec in Hcopy as (_ & c & _ & ->); [|done].
  assert (bp ≠ target_path) as Hne.
  { intros ->. unfold path_exists in Hfree.
    apply orb_false_iff in Hfree as [Hf _]. congruence. }
  assert (∀ q, path_exists d2 q = true →
            path_exists {| regular := <[target_path := c]> (regular d2);
                           directories := directories d2 |} q = true) as Hmono.
  { intros q. unfold path_exists, is_file, is_dir. simpl.
    rewrite !orb_true_iff, !bool_decide_eq_true. intros [Hq|Hq]; [left|by right].
    destruct (decide (target_path = q)) as [->|Hq'].
    - rewrite lookup_insert_eq. by eexists.
    - by rewrite lookup_insert_ne. }
  exists bp. split; [|split; [|split]].
  - destruct Hnaming as [?|(k & Hk & ? & Hplain & Hbefore)]; [by left|right].
    exists k. split; [done|]. split; [done|]. split; [by apply Hmono|].
    intros j Hj. by apply Hmono, Hbefore.
  - unfold path_exists in *. apply orb_false_iff in Hfree as [Hf Hd].
    apply orb_false_iff. split.
    + unfold is_file in *. by rewrite <- Hreg1.
    + destruct (is_dir d bp) eqn:E; [|done].
      rewrite <- Hd. symmetry. apply is_dir_true.
      apply is_dir_true in E as [?|E]; [by left|right].
      rewrite Hdirs1. apply elem_of_union. by left.
  - simpl. rewrite lookup_insert_ne by done.
    by rewrite Hreg2, lookup_insert_eq.
  - intros p Hp Hp'. simpl. rewrite lookup_insert_ne by done.
    by rewrite Hreg2, lookup_insert_ne, Hreg1.
Qed.

Lemma backup_is_fresh_witness :
  ∃ bp,
    path_exists example_disk bp = false ∧
    regular (install_config example_manager
               ["repo"; "term"; "plain"; "a"; "a.conf"]
               ["home"; "u"; ".config"; "a"] example_disk).2 !! bp
    = Some "old".
Proof.
  assert ((install_config example_manager
             ["repo"; "term"; "plain"; "a"; "a.conf"]
             ["home"; "u"; ".config"; "a"] example_disk).1 = Ok true) as Hok.
  { evaluate. }
  destruct (install_config example_manager
              ["repo"; "term"; "plain"; "a"; "a.conf"]
              ["home"; "u"; ".config"; "a"] example_disk) as [r d'] eqn:Hrun.
  simpl in Hok. subst r.
  destruct (backup_is_fresh example_manager
              ["repo"; "term"; "plain"; "a"; "a.conf"]
              ["home"; "u"; ".config"; "a"] example_disk d' "old")
    as (bp & _ & Hfree & Hsaved & _).
  - evaluate.
  - evaluate.
  - evaluate.
  - evaluate.
  - exact Hrun.
  - exists bp. exact (conj Hfree Hsaved).
Defined.

(** C6 as stated fails: the first backup of a file carries no suffix. *)
Lemma first_backup_has_no_suffix : ¬ backup_suffix_as_stated.
Proof.
  intros H.
  assert ((install_config example_manager
             ["repo"; "term"; "plain"; "a"; "a.conf"]
             ["home"; "u"; ".config"; "a"] example_disk).1 = Ok true) as Hok.
  { evaluate. }
  assert (regular (install_config example_manager
             ["repo"; "term"; "plain"; "a"; "a.conf"]
             ["home"; "u"; ".config"; "a"] example_disk).2
            !! ["home"; "u"; ".config_backup"; "a.conf"] = Some "old") as Hnew.
  { evaluate. }
  destruct (install_config example_manager
              ["repo"; "term"; "plain"; "a"; "a.conf"]
              ["home"; "u"; ".config"; "a"] example_disk) as [r d'] eqn:Hrun.
  simpl in Hok, Hnew. subst r.
  destruct (H example_manager ["repo"; "term"; "plain"; "a"; "a.conf"]
              ["home"; "u"; ".config"; "a"] example_disk d' "old")
    as (k & _ & _ & _ & Hframe).
  { evaluate. }
  { evaluate. }
  { evaluate. }
  { evaluate. }
  { exact Hrun. }
  assert (regular example_disk !! ["home"; "u"; ".config_backup"; "a.conf"]
          = None) as Hold.
  { evaluate. }
  assert (Some "old" = @None string) as E; [|discriminate E].
  etrans; [symmetry; exact Hnew|]. etrans; [|exact Hold].
  apply Hframe.
  - unfold suffixed. simpl. intros E. simplify_eq.
  - intros E. discriminate E.
Qed.

(** C7. In dry-run mode [install_config] returns success and leaves the
    disk as it was, whatever the pair, the backup settings and the state
    of the destination. *)
Theorem dry_run_no_mutation self source_path target_dir d :
  dry_run (config self) = true →
  install_config self source_path target_dir d = (Ok true, d).
Proof. intros Hdry. unfold install_config. by rewrite Hdry. Qed.

Lemma dry_run_no_mutation_witness :
  install_config dry_run_manager ["repo"; "term"; "plain"; "a"; "a.conf"]
    ["home"; "u"; ".config"; "a"] example_disk = (Ok true, example_disk).
Proof. apply dry_run_no_mutation. reflexivity. Defined.

(** When no call of [install_config] raises, the loop attempts every
    pair and returns the conjunction of the results. *)
Lemma install_loop_returns self config_files success d :
  (∀ pair d0, In pair config_files →
     ∃ ok d1, install_config self pair.1 pair.2 d0 = (Ok ok, d1)) →
  ∃ results d',
    install_loop self config_files success d
      = (Ok (success && forallb id results), d') ∧
    length results = length config_files.
Proof.
  revert success d.
  induction config_files as [|[source_path target_dir] rest IH];
    intros success d Hok; simpl.
  { exists [], d. by rewrite andb_true_r. }
  destruct (Hok (source_path, target_dir) d) as (ok & d1 & Hrun); [by left|].
  simpl in Hrun. rewrite Hrun.
  destruct (IH (if ok then success else false) d1) as (results & d' & -> & Hlen).
  { intros pair d0 Hin. apply Hok. by right. }
  exists (ok :: results), d'. split; [|by rewrite <- Hlen].
  f_equal. simpl. unfold id at 2. by destruct ok, success.
Qed.

(** Creating the destination directory over a regular file raises, and
    [install_config] lets the exception through. *)
Lemma install_config_raises self source_path target_dir d :
  dry_run (config self) = false →
  is_file d target_dir = true →
  install_config self source_path target_dir d = (Raise FileExistsError, d).
Proof.
  intros Hdry Hfile. unfold install_config.
  rewrite Hdry, parent_snoc. unfold mkdir_parents. by rewrite Hfile.
Qed.

(** C8 at a failing input. [~/.config/b] is a regular file: creating the
    destination directory of the first pair raises [FileExistsError],
    which nothing catches; the loop stops with that exception and an
    unchanged disk, and the second pair, which installs on its own, is
    never attempted. *)
Theorem install_loop_stops_on_mkdir_error :
  install_loop example_manager blocked_files true blocked_disk
    = (Raise FileExistsError, blocked_disk) ∧
  (install_loop example_manager (List.tl blocked_files) true blocked_disk).1
    = Ok true ∧
  regular
    (install_loop example_manager (List.tl blocked_files) true blocked_disk).2
    !! ["home"; "u"; ".config"; "a"; "a.conf"] = Some "new" ∧
  regular blocked_disk !! ["home"; "u"; ".config"; "a"; "a.conf"] = None.
Proof.
  split; [|split; [|split]].
  - unfold blocked_files. cbn [install_loop].
    rewrite install_config_raises; [done| |].
    + evaluate.
    + evaluate.
  - evaluate.
  - evaluate.
  - evaluate.
Qed.

(** ** Repository registry *)

Section Registry.

Lemma app_cons c a b : String c a +:+ b = String c (a +:+ b).
Proof. reflexivity. Qed.

Lemma app_nil_l' b : "" +:+ b = b.
Proof. reflexivity. Qed.

Lemma string_app_assoc a b c : (a +:+ b) +:+ c = a +:+ b +:+ c.
Proof.
  induction a as [|x a IH]; [done|]. by rewrite !app_cons, IH.
Qed.

Lemma has_char_app p a b : has_char p (a +:+ b) = has_char p a || has_char p b.
Proof.
  induction a as [|x a IH]; [done|].
  rewrite app_cons. simpl. by rewrite IH, orb_assoc.
Qed.

(** A separator joins the fields of what is before it and after it. *)
Lemma split_on_sep p a c b :
  p c = true →
  Str.split_on p (a +:+ String c b) = Str.split_on p a ++ Str.split_on p b.
Proof.
  intros Hc. induction a as [|x a IH].
  - rewrite app_nil_l'. simpl. by rewrite Hc.
  - rewrite app_cons. simpl. destruct (p x); [by rewrite IH|].
    rewrite IH. pose proof (split_on_nonempty p a).
    by destruct (Str.split_on p a).
Qed.

Lemma split_on_none p a : has_char p a = false → Str.split_on p a = [a].
Proof.
  induction a as [|x a IH]; [done|]. simpl.
  intros [-> Ha]%orb_false_iff. by rewrite IH.
Qed.

Lemma split_join p sep (l : list string) :
  p sep = true → l ≠ [] → Forall (λ x, has_char p x = false) l →
  Str.split_on p (Str.join (String sep "") l) = l.
Proof.
  intros Hsep Hl Hall. induction Hall as [|x l Hx Hall IH]; [done|].
  destruct l as [|y l].
  - simpl. by apply split_on_none.
  - change (Str.join (String sep "") (x :: y :: l))
      with (x +:+ String sep (Str.join (String sep "") (y :: l))).
    rewrite split_on_sep, split_on_none, IH; done.
Qed.

Lemma has_char_join p sep (l : list string) :
  p sep = false → Forall (λ x, has_char p x = false) l →
  has_char p (Str.join (String sep "") l) = false.
Proof.
  intros Hsep Hall. induction Hall as [|x l Hx Hall IH]; [done|].
  destruct l as [|y l]; [done|].
  change (Str.join (String sep "") (x :: y :: l))
    with (x +:+ String sep (Str.join (String sep "") (y :: l))).
  rewrite has_char_app, Hx. cbn [has_char orb]. by rewrite Hsep, IH.
Qed.

Lemma lstrip_length s : String.length (Str.lstrip s) ≤ String.length s.
Proof.
  induction s as [|c s IH]; simpl; [done|].
  destruct (Str.is_space c); simpl; lia.
Qed.

Lemma lstrip_id_head c s :
  Str.lstrip (String c s) = String c s → Str.is_space c = false.
Proof.
  simpl. destruct (Str.is_space c); [|done].
  intros H. apply (f_equal String.length) in H.
  pose proof (lstrip_length s). simpl in H. lia.
Qed.

Lemma lstrip_app a c b :
  Str.lstrip a = a → Str.is_space c = false →
  Str.lstrip (a +:+ String c b) = a +:+ String c b.
Proof.
  intros Ha Hc. destruct a as [|x a].
  - rewrite app_nil_l'. simpl. by rewrite Hc.
  - rewrite app_cons. simpl. by rewrite (lstrip_id_head _ _ Ha).
Qed.

Lemma rstrip_cons c b :
  Str.is_space c = false → Str.rstrip (String c b) = String c (Str.rstrip b).
Proof. intros Hc. simpl. rewrite Hc. by destruct (Str.rstrip b). Qed.

Lemma rstrip_app a c b :
  Str.is_space c = false →
  Str.rstrip (a +:+ String c b) = a +:+ String c (Str.rstrip b).
Proof.
  intros Hc. induction a as [|x a IH].
  - rewrite !app_nil_l'. by apply rstrip_cons.
  - rewrite !app_cons. simpl. rewrite IH.
    by destruct a.
Qed.

Lemma startswith_hash_app name rest :
  Str.startswith name "#" = false →
  Str.startswith (name +:+ String "|" rest) "#" = false.
Proof.
  unfold Str.startswith. destruct name as [|x name]; [done|].
  rewrite app_cons. cbn -[Ascii.ascii_dec].
  destruct (Ascii.ascii_dec "#" x); [|done]. by destruct name.
Qed.

(** The loop of [load_repo_list] keeps the records of the lines that
    parse. *)
Lemma load_lines (lines : list string) (repos : list RepoEntry) repo :
  In repo
    (fold_left (λ repos line,
       match parse_line line with
       | Some repo_info => repos ++ [repo_info]
       | None => repos
       end) lines repos) ↔
  In repo repos ∨ ∃ line, In line lines ∧ parse_line line = Some repo.
Proof.
  revert repos. induction lines as [|line lines IH]; intros repos; simpl.
  { split; [by left|]. by intros [?|(? & [] & _)]. }
  rewrite IH. destruct (parse_line line) as [r|] eqn:Hp.
  - rewrite List.in_app_iff. simpl. split.
    + intros [[?|[<-|[]]]|(l & ? & ?)]; [by left|right..].
      * exists line. split; [by left|done].
      * exists l. split; [by right|done].
    + intros [?|(l & [<-|?] & Hl)]; [by left; left| |].
      * left. right. left. congruence.
      * right. by exists l.
  - split.
    + intros [?|(l & ? & ?)]; [by left|right]. exists l. split; [by right|done].
    + intros [?|(l & [<-|?] & Hl)]; [by left|congruence|].
      right. by exists l.
Qed.

Lemma repo_line_text repo : repo_line repo = record_text repo +:+ newline.
Proof. unfold repo_line, record_text. by rewrite !string_app_assoc. Qed.

(** The text that [save_repo_list] writes ends every record, and the
    header, with a line break. *)
Lemma saved_text_ends (repos : list RepoEntry) (text : string) :
  (∃ t, text = t +:+ newline) →
  ∃ t, fold_left (λ text repo, text +:+ repo_line repo) repos text
       = t +:+ newline.
Proof.
  revert text. induction repos as [|repo repos IH]; intros text Ht; [done|].
  simpl. apply IH. exists (text +:+ record_text repo).
  by rewrite repo_line_text, string_app_assoc.
Qed.

Lemma header_ends : ∃ t, header = t +:+ newline.
Proof.
  exists (String.substring 0 (String.length header - 1) header).
  by vm_compute.
Qed.

(** The record added last is one of the lines of the saved text. *)
Lemma saved_text_line (repos : list RepoEntry) repo :
  has_char is_newline (record_text repo) = false →
  In (record_text repo)
    (Str.split_on is_newline
       (fold_left (λ text repo, text +:+ repo_line repo) (repos ++ [repo])
          header)).
Proof.
  intros Hclean. rewrite fold_left_app. simpl.
  destruct (saved_text_ends repos header header_ends) as [t ->].
  rewrite repo_line_text, string_app_assoc.
  change (t +:+ newline +:+ record_text repo +:+ newline)
    with (t +:+ String "010" (record_text repo +:+ String "010" "")).
  rewrite !split_on_sep by done. rewrite (split_on_none _ _ Hclean).
  apply List.in_app_iff. right. by left.
Qed.

(** A record of plain fields is read back as it was written. *)
Lemma parse_record_text name url description tags :
  plain_field name → Str.startswith name "#" = false →
  plain_field url → plain_field description →
  tags ≠ [] → Forall plain_tag tags → trimmed (Str.join "," tags) →
  parse_line (record_text (entry name url description tags))
  = Some (entry name url description tags).
Proof.
  intros (Hn1 & Hn2 & Hn3 & Hn4) Hhash (Hu1 & Hu2 & Hu3 & Hu4)
    (Hd1 & Hd2 & Hd3 & Hd4) Hne Htags [Ht3 Ht4].
  unfold parse_line, record_text, entry. simpl.
  set (tags_str := Str.join "," tags) in *.
  assert (has_char (Str.is_char "|") tags_str = false) as Ht1.
  { apply has_char_join; [done|].
    eapply Forall_impl; [exact Htags|]. by intros x (? & _). }
  assert (Str.strip (name +:+ "|" +:+ url +:+ "|" +:+ description +:+ "|"
                       +:+ tags_str)
          = name +:+ "|" +:+ url +:+ "|" +:+ description +:+ "|" +:+ tags_str)
    as ->.
  { unfold Str.strip.
    change (name +:+ "|" +:+ url +:+ "|" +:+ description +:+ "|" +:+ tags_str)
      with (name +:+ String "|" (url +:+ String "|" (description +:+
              String "|" tags_str))).
    rewrite !rstrip_app, Ht4 by done. by apply lstrip_app. }
  change (name +:+ "|" +:+ url +:+ "|" +:+ description +:+ "|" +:+ tags_str)
    with (name +:+ String "|" (url +:+ String "|" (description +:+
            String "|" tags_str))).
  assert (Str.truthy (name +:+ String "|" (url +:+ String "|"
            (description +:+ String "|" tags_str))) = true) as ->.
  { by destruct name. }
  assert (Str.startswith (name +:+ String "|" (url +:+ String "|"
            (description +:+ String "|" tags_str))) "#" = false) as ->.
  { by apply startswith_hash_app. }
  simpl. rewrite !split_on_sep by done.
  rewrite !split_on_none by done. simpl.
  unfold Str.strip. rewrite Hn4, Hn3, Hu4, Hu3, Hd4, Hd3, Ht4, Ht3.
  do 2 f_equal. apply split_join; [done|done|].
  eapply Forall_impl; [exact Htags|]. by intros x (_ & ? & _).
Qed.

End Registry.

(** C9, amended. An entry whose name, URL and description contain no
    [|], no line break and no white space at either end, whose name does
    not start with [#], and whose tag list is not empty, with tags free
    of [|], [,] and line breaks and no white space around the joined
    tags, is found again with the same name, URL, description and tags
    in the registry reloaded after a successful [add_repo]. An entry
    whose name or URL equals that of an entry of the registry is rejected
    and the registry is left as it was. *)
Theorem registry_round_trip ext name url description tags fetch_metadata st :
  (plain_field name → Str.startswith name "#" = false →
   plain_field url → plain_field description →
   tags ≠ [] → Forall plain_tag tags → trimmed (Str.join "," tags) →
   ∀ st', add_repo ext url description tags (Some name) fetch_metadata st
            = (true, st') →
          In (entry name url description tags) (load_repo_list st')) ∧
  (already_listed st name url →
   add_repo ext url description tags (Some name) fetch_metadata st
     = (false, st)).
Proof.
  split.
  - intros Hname Hhash Hurl Hdesc Hne Htags Htrim st'.
    unfold add_repo. simpl.
    destruct (existsb _ (load_repo_list st)); [done|].
    assert (bool_decide (tags ≠ []) = true) as -> by by apply bool_decide_eq_true.
    rewrite andb_false_r. simpl.
    unfold save_repo_list. destruct (writable st); [|done].
    intros [= <-]. unfold load_repo_list. simpl.
    apply load_lines. right.
    exists (record_text (entry name url description tags)). split.
    + apply saved_text_line.
      destruct Hname as (_ & Hn & _), Hurl as (_ & Hu & _),
        Hdesc as (_ & Hd & _).
      unfold record_text, entry. simpl.
      rewrite !has_char_app, Hn, Hu, Hd. cbn [has_char orb].
      change (is_newline "|") with false. cbn [orb].
      apply has_char_join; [done|].
      eapply Forall_impl; [exact Htags|]. by intros x (_ & _ & ?).
    + by apply parse_record_text.
  - intros (repo & Hin & Hdup). unfold add_repo. simpl.
    assert (existsb (λ repo,
              String.eqb (repo_name repo) name || String.eqb (repo_url repo) url)
              (load_repo_list st) = true) as ->; [|done].
    apply List.existsb_exists. exists repo. split; [done|].
    apply orb_true_iff. rewrite !String.eqb_eq. done.
Qed.

Lemma registry_round_trip_witness :
  In (entry "my-theme" "https://example.org/my-theme.git" "A theme"
        ["hyprland"; "eww"])
     (load_repo_list
        (add_repo no_external "https://example.org/my-theme.git" "A theme"
           ["hyprland"; "eww"] (Some "my-theme") true empty_store).2).
Proof.
  assert ((add_repo no_external "https://example.org/my-theme.git" "A theme"
             ["hyprland"; "eww"] (Some "my-theme") true empty_store).1 = true)
    as Hok.
  { evaluate. }
  destruct (add_repo no_external "https://example.org/my-theme.git" "A theme"
              ["hyprland"; "eww"] (Some "my-theme") true empty_store)
    as [r st'] eqn:Hadd.
  simpl in Hok. subst r.
  destruct (registry_round_trip no_external "my-theme"
              "https://example.org/my-theme.git" "A theme"
              ["hyprland"; "eww"] true empty_store) as [Hround _].
  apply Hround.
  - vm_compute. auto.
  - evaluate.
  - vm_compute. auto.
  - vm_compute. auto.
  - discriminate.
  - repeat constructor.
  - vm_compute. auto.
  - exact Hadd.
Defined.

(** C9 as stated fails: a description with a [|] is cut at the
    separator when the registry is read again. *)
Lemma separator_in_field_is_cut : ¬ every_entry_round_trips.
Proof.
  intros H.
  assert ((add_repo no_external "u" "a|b" ["t"] (Some "n") false
             empty_store).1 = true) as Hok.
  { evaluate. }
  assert (load_repo_list
            (add_repo no_external "u" "a|b" ["t"] (Some "n") false
               empty_store).2 = [entry "n" "u" "a" ["b"]]) as Hload.
  { evaluate. }
  destruct (add_repo no_external "u" "a|b" ["t"] (Some "n") false empty_store)
    as [r st'] eqn:Hadd.
  simpl in Hok, Hload. subst r.
  destruct (H no_external "n" "u" "a|b" ["t"] false empty_store) as [Hround _].
  specialize (Hround _ Hadd). rewrite Hload in Hround.
  destruct Hround as [Hround|[]]. discriminate Hround.
Qed.

(** An empty tag list is written as an empty fourth field, which is read
    back as the list of one empty tag. *)
Lemma empty_tags_reload_as_blank_tag :
  load_repo_list (add_repo no_external "u" "d" [] (Some "n") false empty_store).2
  = [entry "n" "u" "d" [""]].
Proof. evaluate. Qed.

(* ================================================================= *)
(** * Part IV: further properties of the code *)
(* ================================================================= *)

(** ** Variant enumeration and selection *)

Section Enumeration.

Variables (self : Manager) (fs : node) (widget_name : string).

Let widget_path := joinpath (repo_path self) widget_name.

(** The loop over the listing keeps the sub-directories that are not
    named [default], in order. *)
Lemma variants_loop (items : list (string * node)) (configs : list Path) :
  fold_left (λ configs (item : string * node),
    if is_dir_node item.2 && negb (String.eqb item.1 "default")
    then configs ++ [widget_path ++ [item.1]] else configs) items configs
  = configs ++
    List.map (λ item : string * node, widget_path ++ [item.1])
      (List.filter (λ item : string * node,
         is_dir_node item.2 && negb (String.eqb item.1 "default")) items).
Proof.
  revert configs. induction items as [|item items IH]; intros configs; simpl.
  { by rewrite app_nil_r. }
  rewrite IH. destruct (is_dir_node item.2 && negb (String.eqb item.1 "default"));
    simpl; [by rewrite <- app_assoc|done].
Qed.

Lemma assoc_some {A} (x : string) (c : A) (l : list (string * A)) :
  In (x, c) l → is_Some (assoc x l).
Proof.
  induction l as [|[k v] l IH]; simpl; [done|].
  destruct (String.eqb x k) eqn:E; [by eexists|].
  intros [[= -> ->]|Hin]; [|by apply IH].
  by rewrite String.eqb_refl in E.
Qed.

(** The shape of an enumeration: variants that are not named [default],
    each an entry of the widget directory, then the [default] path when
    it exists. *)
Lemma find_widget_configs_cases configs :
  find_widget_configs self fs widget_name = Ok configs →
  ∃ variants,
    configs = variants ++
      (if exists_ fs (widget_path ++ ["default"])
       then [widget_path ++ ["default"]] else []) ∧
    Forall (λ p, name p ≠ "default" ∧ parent p = widget_path ∧
                 exists_ fs p = true) variants.
Proof.
  unfold find_widget_configs. fold widget_path.
  destruct (lookup_path fs widget_path) as [[|items]|] eqn:Hw.
  - done.
  - rewrite variants_loop. simpl. set (variants := List.map _ _).
    intros H. exists variants. split.
    { destruct (exists_ fs (widget_path ++ ["default"]));
        injection H as <-; [done|by rewrite app_nil_r]. }
    apply Forall_forall. intros p Hp. subst variants.
    apply list_elem_of_In, List.in_map_iff in Hp as ([x c] & <- & Hin).
    apply List.filter_In in Hin as [Hin Hkeep]. simpl in *.
    apply andb_true_iff in Hkeep as [_ Hx].
    apply negb_true_iff, String.eqb_neq in Hx.
    rewrite name_snoc, parent_snoc. split; [done|]. split; [done|].
    unfold exists_. rewrite lookup_path_app, Hw. simpl.
    destruct (assoc_some _ _ _ Hin) as [c' ->]. done.
  - intros [= <-]. exists []. split; [|constructor].
    unfold exists_. rewrite lookup_path_app, Hw. done.
Qed.

End Enumeration.

Section Selection.

Variables (self : Manager) (fs : node) (widget_name : string).
Variable fingerprint : list (string * string).

Lemma max_list_reached {A} (f : A → nat) (l : list A) :
  0 < max_list (List.map f l) →
  ∃ v, List.find (λ v, f v =? max_list (List.map f l)) l = Some v.
Proof.
  intros Hpos.
  assert (∃ v, In v l ∧ f v = max_list (List.map f l)) as (v & Hin & Hv).
  { induction l as [|x l IH]; simpl in *; [lia|].
    change (max_list (f x :: List.map f l))
      with (f x `max` max_list (List.map f l)) in *.
    destruct (decide (max_list (List.map f l) ≤ f x)).
    - exists x. split; [by left|lia].
    - destruct IH as (v & Hin & Hv); [lia|]. exists v. split; [by right|lia]. }
  destruct (List.find (λ v, f v =? max_list (List.map f l)) l) as [w|] eqn:E;
    [by exists w|].
  apply (List.find_none _ _ E) in Hin. apply Nat.eqb_neq in Hin. done.
Qed.

(** The two ways [select_best_config] ends: with a variant that is not
    named [default] and has a positive score, or with the default. *)
Lemma selection_cases configs :
  find_widget_configs self fs widget_name = Ok configs →
  (∃ v, select_best_config self fs widget_name fingerprint = Ok (Some v) ∧
        In v configs ∧ name v ≠ "default" ∧
        0 < Spec.score_nonempty fingerprint (name v)) ∨
  (select_best_config self fs widget_name fingerprint
     = Ok (default_variant self fs widget_name) ∧
   ∀ v, In v configs → name v ≠ "default" →
        Spec.score_nonempty fingerprint (name v) = 0).
Proof.
  intros Hfind. unfold select_best_config. rewrite Hfind. simpl.
  destruct configs as [|c configs].
  { right. rewrite (no_configs_no_default _ _ _ Hfind). split; [done|].
    by intros v []. }
  rewrite select_loop_invariant. cbn [fst]. rewrite Nat.max_0_l.
  set (candidates := List.filter _ (c :: configs)).
  pose proof (max_list_reached
    (λ v : Path, Spec.score_nonempty fingerprint (name v)) candidates)
    as Hreach.
  cbv beta in Hreach.
  set (top := max_list _) in *.
  destruct (0 <? top) eqn:Htop.
  - left. apply Nat.ltb_lt in Htop. destruct (Hreach Htop) as [v Hv].
    rewrite Hv. exists v. split; [done|].
    apply List.find_some in Hv as [Hin Hscore].
    apply List.filter_In in Hin as [Hin Hnd].
    apply negb_true_iff, String.eqb_neq in Hnd. apply Nat.eqb_eq in Hscore.
    split; [done|]. split; [done|]. lia.
  - right. apply Nat.ltb_ge in Htop. split.
    { unfold default_variant. by destruct (exists_ fs _). }
    intros v Hin Hnd.
    assert (In v candidates) as Hc.
    { apply List.filter_In. split; [done|].
      by apply negb_true_iff, String.eqb_neq. }
    assert (Spec.score_nonempty fingerprint (name v) ≤ top) as Hle.
    { apply max_list_elem_of_le, list_elem_of_In.
      by apply (List.in_map
                  (λ v : Path, Spec.score_nonempty fingerprint (name v))). }
    lia.
Qed.

Lemma filter_nonempty {A} (f : A → bool) (l : list A) :
  0 < length (List.filter f l) → ∃ x, In x l ∧ f x = true.
Proof.
  destruct (List.filter f l) as [|x l'] eqn:E; simpl; [lia|]. intros _.
  exists x. apply List.filter_In. rewrite E. by left.
Qed.

End Selection.

(** X1. In the enumeration of [find_widget_configs] the [default] path
    is present exactly when it exists, a path named [default] occurs
    only as the last element, and every path enumerated is an existing
    entry directly below the widget directory. *)
Theorem default_is_listed_last self fs widget_name configs :
  find_widget_configs self fs widget_name = Ok configs →
  (In (joinpath (repo_path self) widget_name ++ ["default"]) configs ↔
   exists_ fs (joinpath (repo_path self) widget_name ++ ["default"]) = true) ∧
  (∀ i p, configs !! i = Some p → name p = "default" →
          S i = length configs) ∧
  (∀ p, In p configs →
        parent p = joinpath (repo_path self) widget_name ∧
        exists_ fs p = true).
Proof.
  intros Hfind.
  destruct (find_widget_configs_cases _ _ _ _ Hfind)
    as (variants & -> & Hvariants).
  rewrite Forall_forall in Hvariants.
  set (default_path := joinpath (repo_path self) widget_name ++ ["default"])
    in *.
  assert (∀ p, In p variants →
            name p ≠ "default" ∧
            parent p = joinpath (repo_path self) widget_name ∧
            exists_ fs p = true) as Hv.
  { intros p Hp. by apply list_elem_of_In, Hvariants in Hp. }
  clear Hvariants.
  destruct (exists_ fs default_path) eqn:E.
  - split; [|split].
    + split; [done|]. intros _. apply List.in_app_iff. right. by left.
    + intros i p Hi Hname.
      apply lookup_app_Some in Hi as [Hi|[Hlen Hi]].
      { apply list_elem_of_lookup_2, list_elem_of_In, Hv in Hi as [? _].
        done. }
      apply list_lookup_singleton_Some in Hi as [Hi _].
      rewrite length_app. simpl. unfold Path in *. lia.
    + intros p [Hin|Hin]%List.in_app_iff.
      * by apply Hv in Hin as (_ & ? & ?).
      * destruct Hin as [<-|[]]. unfold default_path.
        by rewrite parent_snoc.
  - rewrite app_nil_r. split; [|split].
    + split; [|done]. intros Hin. apply Hv in Hin as [Hname _].
      unfold default_path in Hname. by rewrite name_snoc in Hname.
    + intros i p Hi Hname.
      apply list_elem_of_lookup_2, list_elem_of_In, Hv in Hi as [? _]. done.
    + intros p Hin. by apply Hv in Hin as (_ & ? & ?).
Qed.

Lemma default_is_listed_last_witness :
  In ["repo"; "bar"; "default"]
     [["repo"; "bar"; "hyprland-zsh"]; ["repo"; "bar"; "hyprland"];
      ["repo"; "bar"; "default"]] ↔
  exists_ example_fs ["repo"; "bar"; "default"] = true.
Proof.
  apply (default_is_listed_last example_manager example_fs "bar"). reflexivity.
Defined.

(** X2. A variant that [select_best_config] returns under another name
    than [default] matches the fingerprint: some non-empty fingerprint
    value, or one of its white-space separated tokens, occurs in the
    name of the variant, case ignored. *)
Theorem selection_matches_fingerprint self fs widget_name fingerprint p :
  select_best_config self fs widget_name fingerprint = Ok (Some p) →
  name p ≠ "default" →
  ∃ key value,
    In (key, value) fingerprint ∧ value ≠ "" ∧
    (Spec.occurs_in value (name p) = true ∨
     Spec.token_occurs_in value (name p) = true).
Proof.
  intros Hsel Hname.
  destruct (find_widget_configs self fs widget_name) as [configs|e] eqn:Hfind.
  2: { unfold select_best_config in Hsel. by rewrite Hfind in Hsel. }
  destruct (selection_cases self fs widget_name fingerprint configs Hfind)
    as [(v & Hv & _ & _ & Hscore)|[Hd _]].
  - rewrite Hv in Hsel. injection Hsel as <-.
    unfold Spec.score_nonempty in Hscore.
    set (whole := List.filter _ fingerprint) in Hscore.
    set (tokens := List.filter _ fingerprint) in Hscore.
    destruct (decide (0 < length whole)) as [Hw|Hw].
    + apply filter_nonempty in Hw as ([key value] & Hin & Hkeep).
      apply andb_true_iff in Hkeep as [Hne Hocc]. simpl in *.
      exists key, value. split; [done|]. split; [by destruct value|by left].
    + assert (0 < length tokens) as Ht by lia.
      apply filter_nonempty in Ht as ([key value] & Hin & Hocc). simpl in *.
      exists key, value. split; [done|]. split; [|by right].
      intros ->. by vm_compute in Hocc.
  - rewrite Hd in Hsel. injection Hsel as Hsel. unfold default_variant in Hsel.
    destruct (exists_ fs _); [|done]. injection Hsel as <-.
    by rewrite name_snoc in Hname.
Qed.

Lemma selection_matches_fingerprint_witness :
  ∃ key value,
    In (key, value) example_fingerprint ∧ value ≠ "" ∧
    (Spec.occurs_in value "hyprland-zsh" = true ∨
     Spec.token_occurs_in value "hyprland-zsh" = true).
Proof.
  apply (selection_matches_fingerprint example_manager example_fs "bar"
           example_fingerprint ["repo"; "bar"; "hyprland-zsh"]).
  - reflexivity.
  - discriminate.
Defined.

(** ** Environment fingerprint detector *)

Section Detection.

Lemma env_entry_elem key value k v :
  In (k, v) (env_entry key value) → k = key ∧ value = Some v ∧ v ≠ "".
Proof.
  unfold env_entry. destruct value as [w|]; [|done].
  destruct (Str.truthy w) eqn:E; [|done].
  intros [[= <- <-]|[]]. split; [done|]. split; [done|]. by intros ->.
Qed.

Lemma env_entry_keys key value :
  List.map fst (env_entry key value) = [key] ∨
  List.map fst (env_entry key value) = [].
Proof.
  unfold env_entry. destruct value as [w|]; [|by right].
  destruct (Str.truthy w); [by left|by right].
Qed.

(** The fields of a split hold no separator. *)
Lemma split_on_fields p s :
  Forall (λ field, has_char p field = false) (Str.split_on p s).
Proof.
  induction s as [|c s IH]; simpl; [by repeat constructor|].
  destruct (p c) eqn:Hc; [by constructor|].
  destruct (Str.split_on p s) as [|w ws].
  { constructor; [|constructor]. simpl. by rewrite Hc. }
  inversion IH as [|? ? Hw Hws]; subst.
  constructor; [|done]. simpl. by rewrite Hc.
Qed.

(** Joining the fields of a split with the separator gives the string
    back. *)
Lemma join_split sep s :
  Str.join (String sep "") (Str.split_on (Str.is_char sep) s) = s.
Proof.
  induction s as [|c s IH]; [done|]. simpl.
  pose proof (split_on_nonempty (Str.is_char sep) s) as Hne.
  destruct (Str.split_on (Str.is_char sep) s) as [|w ws] eqn:E; [done|].
  unfold Str.is_char. case_bool_decide as Hc; simpl.
  - subst c.
    change (String sep (Str.join (String sep "") (w :: ws)) = String sep s).
    by rewrite IH.
  - rewrite <- IH. by destruct ws.
Qed.

End Detection.

(** X3. Every value of a fingerprint of [detect_environment] is
    non-empty, and its keys are among [window_manager], [compositor],
    [shell] and [terminal], each at most once and in that order. *)
Theorem detected_fingerprint_is_well_formed pr :
  Forall (λ kv : string * string, kv.2 ≠ "") (detect_environment pr) ∧
  sublist (List.map fst (detect_environment pr)) fingerprint_keys.
Proof.
  split.
  - apply Forall_forall. intros [k v] Hin. simpl.
    apply list_elem_of_In in Hin. unfold detect_environment in Hin.
    repeat (apply List.in_app_iff in Hin as [Hin|Hin]);
      by apply env_entry_elem in Hin as (_ & _ & ?).
  - unfold detect_environment, fingerprint_keys. rewrite !List.map_app.
    change ["window_manager"; "compositor"; "shell"; "terminal"]
      with (["window_manager"] ++ ["compositor"] ++ ["shell"] ++ ["terminal"]).
    repeat apply sublist_app;
      match goal with
      | |- sublist (List.map fst (env_entry ?k ?v)) _ =>
          destruct (env_entry_keys k v) as [-> | ->];
          [done|apply sublist_nil_l]
      end.
Qed.

Section DetectedSelection.

(** On non-empty values the score as worded is the score of the loop. *)
Lemma score_of_nonempty_values fingerprint variant_name :
  Forall (λ kv : string * string, kv.2 ≠ "") fingerprint →
  Spec.score fingerprint variant_name
  = Spec.score_nonempty fingerprint variant_name.
Proof.
  intros Hall. unfold Spec.score, Spec.score_nonempty. do 3 f_equal.
  apply List.filter_ext_in. intros [k v] Hin.
  apply list_elem_of_In in Hin. rewrite Forall_forall in Hall.
  apply Hall in Hin. simpl in *. by destruct v.
Qed.

Lemma find_ext {A} (f g : A → bool) (l : list A) :
  (∀ x, f x = g x) → List.find f l = List.find g l.
Proof.
  intros Hfg. induction l as [|x l IH]; simpl; [done|].
  by rewrite Hfg, IH.
Qed.

Lemma select_ext (s1 s2 : string → nat) variants default_path :
  (∀ nm, s1 nm = s2 nm) →
  Spec.select s1 variants default_path = Spec.select s2 variants default_path.
Proof.
  intros Hs. unfold Spec.select, Spec.best_variant.
  set (candidates := List.filter _ variants).
  rewrite (List.map_ext (λ v, s1 (name v)) (λ v, s2 (name v)))
    by (intros v; apply Hs).
  set (top := max_list _).
  destruct (top =? 0); [done|].
  rewrite (find_ext (λ v, s1 (name v) =? top) (λ v, s2 (name v) =? top));
    [done|].
  intros v. by rewrite Hs.
Qed.

(** The selection loop as a selection with the score of the loop. *)
Lemma selection_by_loop self fs widget_name fingerprint :
  select_best_config self fs widget_name fingerprint =
  (variants ← find_widget_configs self fs widget_name;
   Ok (Spec.select (Spec.score_nonempty fingerprint) variants
         (default_variant self fs widget_name))).
Proof.
  unfold select_best_config.
  pose proof (no_configs_no_default self fs widget_name) as Hnone.
  destruct (find_widget_configs self fs widget_name) as [configs|e];
    simpl; [|done].
  destruct configs as [|v l]; [by rewrite Hnone|].
  clear Hnone. rewrite select_loop_invariant. cbn [fst].
  unfold Spec.select, Spec.best_variant, default_variant.
  set (candidates := List.filter _ (v :: l)).
  rewrite Nat.max_0_l.
  destruct (max_list _) as [|top]; simpl.
  - by destruct (exists_ fs _).
  - destruct (List.find _ candidates); [done|]. by destruct (exists_ fs _).
Qed.

End DetectedSelection.

(** X4. On every fingerprint that [detect_environment] produces,
    [select_best_config] is the selection with the score as the
    specification words it, 2 for every value that occurs in the variant
    name and 1 for every value with a token that occurs in it: a
    detected fingerprint holds no empty value. *)
Theorem detected_selection_is_reference pr self fs widget_name :
  select_best_config self fs widget_name (detect_environment pr) =
  (variants ← find_widget_configs self fs widget_name;
   Ok (Spec.select (Spec.score (detect_environment pr)) variants
         (default_variant self fs widget_name))).
Proof.
  rewrite selection_by_loop.
  destruct (find_widget_configs self fs widget_name) as [variants|e];
    simpl; [|done].
  f_equal. symmetry. apply select_ext. intros nm.
  apply score_of_nonempty_values.
  apply Forall_forall. intros [k v] Hin. simpl.
  apply list_elem_of_In in Hin. unfold detect_environment in Hin.
  repeat (apply List.in_app_iff in Hin as [Hin|Hin]);
    by apply env_entry_elem in Hin as (_ & _ & ?).
Qed.

(** ** Installer: what a run changes *)

Section Changes.

Variable self : Manager.

Lemma touches_only_refl allowed d : touches_only allowed d d.
Proof. split; [done|]. intros p. by left. Qed.

Lemma touches_only_trans (a1 a2 a3 : Path → Prop) d1 d2 d3 :
  touches_only a1 d1 d2 → touches_only a2 d2 d3 →
  (∀ p, a1 p → a3 p) → (∀ p, a2 p → a3 p) →
  touches_only a3 d1 d3.
Proof.
  intros [Hd1 Hr1] [Hd2 Hr2] H1 H2. split; [by auto|].
  intros p. destruct (Hr2 p) as [E2|[Hs2 Ha2]].
  - rewrite E2. destruct (Hr1 p) as [E1|[Hs1 Ha1]]; [by left|right].
    split; [done|by apply H1].
  - right. split; [done|by apply H2].
Qed.

Lemma touches_only_weaken (a1 a2 : Path → Prop) d1 d2 :
  touches_only a1 d1 d2 → (∀ p, a1 p → a2 p) → touches_only a2 d1 d2.
Proof.
  intros [Hd Hr] H. split; [done|]. intros p.
  destruct (Hr p) as [E|[Hs Ha]]; [by left|right]. split; [done|by apply H].
Qed.

(** Creating directories leaves the files alone. *)
Lemma mkdir_parents_touches p d r d1 :
  mkdir_parents p d = (r, d1) → touches_only (λ _, False) d d1.
Proof.
  unfold mkdir_parents.
  destruct (is_file d p); [intros [= _ <-]; apply touches_only_refl|].
  destruct (existsb (is_file d) (prefixes p));
    [intros [= _ <-]; apply touches_only_refl|].
  intros [= _ <-]. split; [|intros q; by left].
  intros q. rewrite !is_dir_true. simpl. rewrite elem_of_union. tauto.
Qed.

Lemma mkdir_touches p d r d1 :
  mkdir p d = (r, d1) → touches_only (λ _, False) d d1.
Proof.
  unfold mkdir.
  repeat (match goal with
          | |- context [if ?b then _ else _] => destruct b
          end; try (intros [= _ <-]; apply touches_only_refl)).
  intros [= _ <-]. split; [|intros q; by left].
  intros q. rewrite !is_dir_true. simpl. rewrite elem_of_union. tauto.
Qed.

(** What a copy writes: the destination, or the file of the same name
    inside it when the destination is a directory. *)
Lemma copy2_writes src dst d d2 :
  copy2 src dst d = Some d2 →
  ∃ c dst',
    regular d !! src = Some c ∧ dst' ≠ src ∧
    (is_dir d dst = false ∧ dst' = dst ∨
     is_dir d dst = true ∧ dst' = dst ++ [name src]) ∧
    d2 = {| regular := <[dst' := c]> (regular d);
            directories := directories d |}.
Proof.
  unfold copy2. destruct (regular d !! src) as [c|]; [|done].
  set (dst' := if is_dir d dst then dst ++ [name src] else dst).
  case_bool_decide as Hsame; [done|].
  destruct (is_dir d dst'); [done|].
  destruct (negb (is_dir d (parent dst'))); [done|].
  intros [= <-]. exists c, dst'. split; [done|]. split; [done|].
  split; [|done]. subst dst'. destruct (is_dir d dst); tauto.
Qed.

Lemma copy2_touches src dst d d2 :
  copy2 src dst d = Some d2 →
  touches_only (λ p, p = dst ∨ p = dst ++ [name src]) d d2.
Proof.
  intros (c & dst' & _ & _ & Hdst & ->)%copy2_writes. split; [done|].
  intros p. simpl. destruct (decide (dst' = p)) as [<-|Hne].
  - right. rewrite lookup_insert_eq. split; [by eexists|]. tauto.
  - left. by rewrite lookup_insert_ne.
Qed.

(** A backup writes at most one file, at a path that did not exist. *)
Lemma backup_existing_touches target_path d r d2 :
  backup_existing self target_path d = (r, d2) →
  touches_only (λ p, backup_existing_flag (config self) = true ∧
                     path_exists d p = false) d d2.
Proof.
  unfold backup_existing.
  destruct (negb (path_exists d target_path));
    [intros [= _ <-]; apply touches_only_refl|].
  destruct (backup_existing_flag (config self)) eqn:Hflag; simpl;
    [|intros [= _ <-]; apply touches_only_refl].
  set (made := if create_backup_dir (config self) then _ else _).
  assert (touches_only (λ _, False) d made.2) as Hmade.
  { subst made. destruct (create_backup_dir (config self)).
    - destruct (mkdir (backup_dir self) d) as [r1 d1] eqn:E.
      by apply mkdir_touches in E.
    - apply touches_only_refl. }
  destruct made as [[u|e] d1]; simpl in Hmade.
  2: { intros [= _ <-]. eapply touches_only_weaken; [exact Hmade|done]. }
  destruct (free_backup_path_spec d1 (backup_dir self) (name target_path))
    as [Hfree _].
  set (bp := free_backup_path d1 (backup_dir self) (name target_path)) in *.
  destruct (copy2 target_path bp d1) as [d2'|] eqn:Hcopy.
  2: { intros [= _ <-]. eapply touches_only_weaken; [exact Hmade|done]. }
  intros [= _ <-].
  assert (path_exists d bp = false) as Hfree0.
  { destruct Hmade as [Hdirs Hreg]. unfold path_exists in *.
    apply orb_false_iff in Hfree as [Hf Hd]. apply orb_false_iff. split.
    - unfold is_file in *. destruct (Hreg bp) as [E|[_ []]]. by rewrite <- E.
    - destruct (is_dir d bp) eqn:E; [|done]. apply Hdirs in E. congruence. }
  apply copy2_writes in Hcopy as (c & dst' & _ & _ & Hdst & ->).
  assert (dst' = bp) as ->.
  { destruct Hdst as [[_ ?]|[Hd _]]; [done|].
    unfold path_exists in Hfree. apply orb_false_iff in Hfree as [_ ?].
    congruence. }
  apply (touches_only_trans (λ _, False)
           (λ p, path_exists d p = false) _ d d1);
    [exact Hmade| |done|by intros p Hp].
  split; [done|]. intros p. simpl.
  destruct (decide (bp = p)) as [<-|Hne].
  - right. rewrite lookup_insert_eq. split; [by eexists|done].
  - left. by rewrite lookup_insert_ne.
Qed.

(** What [install_config] may change, in every outcome. *)
Lemma install_config_touches source_path target_dir d r d' :
  install_config self source_path target_dir d = (r, d') →
  touches_only
    (λ p, p = target_dir ++ [name source_path] ∨
          p = target_dir ++ [name source_path] ++ [name source_path] ∨
          (backup_existing_flag (config self) = true ∧
           path_exists d p = false)) d d'.
Proof.
  unfold install_config. rewrite parent_snoc.
  set (target_path := target_dir ++ [name source_path]).
  destruct (dry_run (config self));
    [intros [= _ <-]; apply touches_only_refl|].
  destruct (mkdir_parents target_dir d) as [r1 d1] eqn:Hmk.
  apply mkdir_parents_touches in Hmk.
  destruct r1 as [u|e].
  2: { intros [= _ <-]. eapply touches_only_weaken; [exact Hmk|done]. }
  destruct (backup_existing self target_path d1) as [r2 d2] eqn:Hb.
  apply backup_existing_touches in Hb.
  assert (touches_only
            (λ p, backup_existing_flag (config self) = true ∧
                  path_exists d p = false) d d2) as H12.
  { eapply touches_only_trans; [exact Hmk|exact Hb|done|].
    intros p [Hflag Hfree]. split; [done|].
    destruct Hmk as [Hdirs Hreg]. unfold path_exists in *.
    apply orb_false_iff in Hfree as [Hf Hd]. apply orb_false_iff. split.
    - unfold is_file in *. destruct (Hreg p) as [E|[_ []]]. by rewrite <- E.
    - destruct (is_dir d p) eqn:E; [|done]. apply Hdirs in E. congruence. }
  destruct r2 as [[|]|e].
  - destruct (copy2 source_path target_path d2) as [d3|] eqn:Hc.
    + intros [= _ <-]. apply copy2_touches in Hc.
      eapply touches_only_trans;
        [exact H12|exact Hc|by intros p Hp; right; right|].
      intros p [-> | ->]; [by left|]. right. left.
      unfold target_path. by rewrite <- app_assoc.
    + intros [= _ <-].
      eapply touches_only_weaken; [exact H12|by intros p Hp; right; right].
  - intros [= _ <-].
    eapply touches_only_weaken; [exact H12|by intros p Hp; right; right].
  - intros [= _ <-].
    eapply touches_only_weaken; [exact H12|by intros p Hp; right; right].
Qed.

(** Files and directories that exist are still there after a run that
    only adds. *)
Lemma touches_only_keeps allowed d d' p :
  touches_only allowed d d' →
  (is_file d p = true → is_file d' p = true) ∧
  (is_dir d p = true → is_dir d' p = true).
Proof.
  intros [Hdirs Hreg]. split; [|by apply Hdirs].
  rewrite !is_file_true. intros Hp.
  destruct (Hreg p) as [E|[? _]]; [by rewrite E|done].
Qed.

(** In dry-run mode the loop returns its flag and the disk as it was. *)
Lemma install_loop_dry_run config_files success d :
  dry_run (config self) = true →
  install_loop self config_files success d = (Ok success, d).
Proof.
  intros Hdry. revert success.
  induction config_files as [|[source_path target_dir] rest IH];
    intros success; simpl; [done|].
  unfold install_config. rewrite Hdry. apply IH.
Qed.

End Changes.

Section InstallFacts.

Variable self : Manager.

(** The directories a backup can add: the backup directory, and only
    when the target exists. *)
Lemma backup_existing_dirs target_path d r d2 q :
  backup_existing self target_path d = (r, d2) →
  is_dir d2 q = true →
  is_dir d q = true ∨
  (q = backup_dir self ∧ is_file d q = false ∧
   path_exists d target_path = true).
Proof.
  unfold backup_existing.
  destruct (path_exists d target_path) eqn:Hex; simpl;
    [|intros [= _ <-]; by left].
  destruct (negb (backup_existing_flag (config self)));
    [intros [= _ <-]; by left|].
  destruct (create_backup_dir (config self)).
  - destruct (mkdir (backup_dir self) d) as [[u|e] d1] eqn:Hmk.
    + apply mkdir_ok in Hmk as [_ Hdirs].
      destruct (copy2 _ _ d1) as [d2'|] eqn:Hc.
      * apply copy2_writes in Hc as (c & dst' & _ & _ & _ & ->).
        intros [= _ <-]. unfold is_dir at 1. simpl. fold (is_dir d1 q).
        rewrite Hdirs. intros [?|[-> ?]]; [by left|by right].
      * intros [= _ <-]. rewrite Hdirs.
        intros [?|[-> ?]]; [by left|by right].
    + apply mkdir_touches in Hmk as Ht. unfold mkdir in Hmk.
      repeat (match type of Hmk with
              | context [if ?b then _ else _] => destruct b
              end; try discriminate Hmk);
        injection Hmk as _ <-; intros [= _ <-]; by left.
  - destruct (copy2 _ _ d) as [d2'|] eqn:Hc.
    + apply copy2_writes in Hc as (c & dst' & _ & _ & _ & ->).
      intros [= _ <-]. by left.
    + intros [= _ <-]. by left.
Qed.

End InstallFacts.

(** X5. Whatever its outcome, [install_config] removes no file and no
    directory, and a path that existed before and is neither the
    destination file nor, when that path is a directory, the file of the
    same name inside it, holds the same content afterwards. *)
Theorem install_config_keeps_other_files self source_path target_dir d p :
  let d' := (install_config self source_path target_dir d).2 in
  (is_file d p = true → is_file d' p = true) ∧
  (is_dir d p = true → is_dir d' p = true) ∧
  (path_exists d p = true →
   p ≠ target_dir ++ [name source_path] →
   p ≠ target_dir ++ [name source_path; name source_path] →
   regular d' !! p = regular d !! p).
Proof.
  intros d'. subst d'.
  destruct (install_config self source_path target_dir d) as [r d'] eqn:Hrun.
  apply install_config_touches in Hrun. simpl.
  destruct (touches_only_keeps _ _ _ p Hrun) as [Hf Hd].
  split; [done|]. split; [done|].
  intros Hex Hne1 Hne2. destruct Hrun as [_ Hreg].
  destruct (Hreg p) as [E|[_ [?|[?|[_ ?]]]]]; [done|done|done|congruence].
Qed.

Lemma install_config_keeps_other_files_witness :
  is_file
    (install_config example_manager ["repo"; "term"; "plain"; "a"; "a.conf"]
       ["home"; "u"; ".config"; "a"] example_disk).2
    ["repo"; "term"; "plain"; "a"; "a.conf"] = true.
Proof.
  destruct (install_config_keeps_other_files example_manager
              ["repo"; "term"; "plain"; "a"; "a.conf"]
              ["home"; "u"; ".config"; "a"] example_disk
              ["repo"; "term"; "plain"; "a"; "a.conf"]) as [Hfile _].
  apply Hfile. vm_compute. reflexivity.
Defined.

(** X6. After a successful [install_config] of an existing source file,
    outside dry-run mode and onto a destination path that is not a
    directory, the destination file holds the content of the source. *)
Theorem install_puts_source_at_destination
    self source_path target_dir d d' :
  dry_run (config self) = false →
  is_file d source_path = true →
  is_dir d (target_dir ++ [name source_path]) = false →
  install_config self source_path target_dir d = (Ok true, d') →
  regular d' !! (target_dir ++ [name source_path]) = regular d !! source_path ∧
  regular d' !! source_path = regular d !! source_path.
Proof.
  intros Hdry Hsrc Hnodir. unfold install_config. rewrite Hdry, parent_snoc.
  set (target_path := target_dir ++ [name source_path]) in *.
  destruct (mkdir_parents target_dir d) as [[u|e] d1] eqn:Hmk; [|done].
  apply mkdir_parents_ok in Hmk as [Hreg1 Hdirs1].
  destruct (backup_existing self target_path d1) as [[[|]|e] d2] eqn:Hb;
    [|done|done].
  destruct (copy2 source_path target_path d2) as [d3|] eqn:Hcopy; [|done].
  intros [= <-].
  assert (is_dir d1 target_path = false) as Hnodir1.
  { destruct (is_dir d1 target_path) eqn:E; [|done].
    apply is_dir_true in E as [E|E].
    { unfold target_path in E. by destruct target_dir. }
    rewrite Hdirs1, elem_of_union, elem_of_list_to_set in E.
    destruct E as [E|E].
    - assert (is_dir d target_path = true) as E' by (apply is_dir_true; by right).
      congruence.
    - apply prefixes_length in E. unfold target_path in E.
      rewrite length_app in E. simpl in E. lia. }
  assert (is_dir d2 target_path = false) as Hnodir2.
  { destruct (is_dir d2 target_path) eqn:E; [|done].
    apply (backup_existing_dirs _ _ _ _ _ _ Hb) in E
      as [E|(_ & Hnofile & Hex)]; [congruence|].
    unfold path_exists in Hex. rewrite Hnofile, Hnodir1 in Hex. done. }
  assert (regular d2 !! source_path = regular d !! source_path) as Hsrc2.
  { apply backup_existing_touches in Hb as [_ Hreg].
    destruct (Hreg source_path) as [E|[_ [_ Hfree]]]; [by rewrite E, Hreg1|].
    unfold path_exists, is_file in Hfree, Hsrc. rewrite Hreg1 in Hfree.
    by rewrite Hsrc in Hfree. }
  apply copy2_spec in Hcopy as (Hne & c & Hc & ->); [|done]. simpl.
  rewrite lookup_insert_eq, lookup_insert_ne by done.
  by rewrite <- Hsrc2, Hc.
Qed.

Lemma install_puts_source_at_destination_witness :
  regular (install_config example_manager
             ["repo"; "term"; "plain"; "a"; "a.conf"]
             ["home"; "u"; ".config"; "a"] example_disk).2
    !! ["home"; "u"; ".config"; "a"; "a.conf"]
  = regular example_disk !! ["repo"; "term"; "plain"; "a"; "a.conf"].
Proof.
  assert ((install_config example_manager
             ["repo"; "term"; "plain"; "a"; "a.conf"]
             ["home"; "u"; ".config"; "a"] example_disk).1 = Ok true) as Hok.
  { evaluate. }
  destruct (install_config example_manager
              ["repo"; "term"; "plain"; "a"; "a.conf"]
              ["home"; "u"; ".config"; "a"] example_disk) as [r d'] eqn:Hrun.
  simpl in Hok. subst r.
  apply (install_puts_source_at_destination example_manager
           ["repo"; "term"; "plain"; "a"; "a.conf"]
           ["home"; "u"; ".config"; "a"] example_disk d').
  - evaluate.
  - evaluate.
  - evaluate.
  - exact Hrun.
Defined.

(** After a selection that does not raise, the compatibility check of
    the same widget does not raise either. *)
Lemma check_after_selection self fs widget_name fingerprint selected files :
  select_best_config self fs widget_name fingerprint = Ok selected →
  ∃ report,
    check_program_compatibility self fs files (Some widget_name) = Ok report.
Proof.
  unfold select_best_config, check_program_compatibility, program_files_of.
  destruct (find_widget_configs self fs widget_name) as [configs|e]; [|done].
  intros _. destruct (Str.truthy widget_name); simpl; by eexists.
Qed.

(** X7. In dry-run mode [install_widget] leaves the disk as it was,
    and it raises only the exception that enumerating the variants of
    the widget raises. *)
Theorem install_widget_dry_run
    self fs detected widget_name environment use_config_fallback d :
  dry_run (config self) = true →
  (install_widget self fs detected widget_name environment
     use_config_fallback d).2 = d ∧
  ∀ e, (install_widget self fs detected widget_name environment
          use_config_fallback d).1 = Raise e →
       find_widget_configs self fs widget_name = Raise e.
Proof.
  intros Hdry. unfold install_widget.
  destruct (select_best_config self fs widget_name (default detected environment))
    as [selected|e0] eqn:Hsel.
  2: { split; [done|]. intros e [= <-]. unfold select_best_config in Hsel.
       destruct (find_widget_configs self fs widget_name)
         as [configs|e1]; [|simpl in Hsel; congruence].
       simpl in Hsel. destruct configs; [done|].
       destruct (fold_left _ _ _).1; [done|].
       by destruct (exists_ _ _). }
  assert (∀ files, ∃ report,
    check_program_compatibility self fs files (Some widget_name) = Ok report)
    as Hcheck.
  { intros files. exact (check_after_selection _ _ _ _ _ files Hsel). }
  cbv zeta.
  destruct selected as [config_path|]; [|destruct use_config_fallback].
  - destruct (get_config_files self fs config_path) as [|pair files];
      [by split|].
    destruct (Hcheck (pair :: files)) as [report ->].
    by rewrite install_loop_dry_run.
  - destruct (get_config_files self fs (home_config self)) as [|pair files];
      [by split|].
    destruct (Hcheck (pair :: files)) as [report ->].
    by rewrite install_loop_dry_run.
  - by split.
Qed.

Lemma install_widget_dry_run_witness :
  (install_widget dry_run_manager example_fs [] "term"
     (Some example_fingerprint) false example_disk).2 = example_disk.
Proof.
  apply (install_widget_dry_run dry_run_manager example_fs [] "term"
           (Some example_fingerprint) false example_disk).
  reflexivity.
Defined.

(** ** Registry: what is read, and what is written and read again *)

Section RegistryFacts.

Lemma app_nil_r' a : a +:+ "" = a.
Proof. induction a as [|c a IH]; [done|]. by rewrite app_cons, IH. Qed.

(** The loop of [load_repo_list] keeps the records of the lines that
    parse, in order. *)
Lemma load_fold (lines : list string) (repos : list RepoEntry) :
  fold_left (λ repos line,
    match parse_line line with
    | Some repo_info => repos ++ [repo_info]
    | None => repos
    end) lines repos
  = repos ++ omap parse_line lines.
Proof.
  revert repos. induction lines as [|line lines IH]; intros repos; simpl.
  { by rewrite app_nil_r. }
  rewrite IH. destruct (parse_line line); [|done].
  by rewrite <- app_assoc.
Qed.

Lemma load_text_lines text :
  load_text text = omap parse_line (Str.split_on is_newline text).
Proof. unfold load_text, load_repo_list. simpl. by rewrite load_fold. Qed.

Lemma load_text_app a b :
  load_text (a +:+ newline +:+ b) = load_text a ++ load_text b.
Proof.
  rewrite !load_text_lines. unfold newline. rewrite app_cons, app_nil_l'.
  rewrite split_on_sep by done. apply omap_app.
Qed.

Lemma has_char_lstrip p s :
  has_char p s = false → has_char p (Str.lstrip s) = false.
Proof.
  induction s as [|c s IH]; [done|]. simpl.
  destruct (Str.is_space c); [|done].
  intros [_ H]%orb_false_iff. by apply IH.
Qed.

Lemma has_char_rstrip p s :
  has_char p s = false → has_char p (Str.rstrip s) = false.
Proof.
  induction s as [|c s IH]; [done|]. simpl.
  intros [Hc H]%orb_false_iff. specialize (IH H).
  destruct (Str.rstrip s) as [|c' r].
  - destruct (Str.is_space c); simpl; [done|]. by rewrite Hc.
  - simpl. rewrite Hc. exact IH.
Qed.

Lemma has_char_strip p s :
  has_char p s = false → has_char p (Str.strip s) = false.
Proof. intros H. by apply has_char_lstrip, has_char_rstrip. Qed.

Lemma lstrip_idem s : Str.lstrip (Str.lstrip s) = Str.lstrip s.
Proof.
  induction s as [|c s IH]; [done|]. simpl.
  destruct (Str.is_space c) eqn:Hc; [done|]. simpl. by rewrite Hc.
Qed.

Lemma rstrip_idem s : Str.rstrip (Str.rstrip s) = Str.rstrip s.
Proof.
  induction s as [|c s IH]; [done|]. simpl.
  destruct (Str.rstrip s) as [|c' r] eqn:E.
  - destruct (Str.is_space c) eqn:Hc; [done|]. simpl. by rewrite Hc.
  - change (Str.rstrip (String c (String c' r))) with
      (match Str.rstrip (String c' r) with
       | EmptyString =>
           if Str.is_space c then EmptyString else String c EmptyString
       | r' => String c r'
       end).
    by rewrite IH.
Qed.

Lemma rstrip_lstrip s :
  Str.rstrip s = s → Str.rstrip (Str.lstrip s) = Str.lstrip s.
Proof.
  induction s as [|c s IH]; [done|]. intros H.
  change (Str.lstrip (String c s))
    with (if Str.is_space c then Str.lstrip s else String c s).
  destruct (Str.is_space c) eqn:Hc; [|done].
  apply IH. simpl in H. rewrite Hc in H.
  destruct (Str.rstrip s) as [|c' r]; [done|]. by injection H.
Qed.

Lemma strip_trimmed s : trimmed (Str.strip s).
Proof.
  unfold trimmed, Str.strip. split; [apply lstrip_idem|].
  apply rstrip_lstrip, rstrip_idem.
Qed.

(** A field of a split holds no character that the string does not
    hold. *)
Lemma split_on_has_char q p s :
  has_char q s = false →
  Forall (λ field, has_char q field = false) (Str.split_on p s).
Proof.
  induction s as [|c s IH]; simpl; [by repeat constructor|].
  intros [Hc H]%orb_false_iff. specialize (IH H).
  destruct (p c); [by constructor|].
  destruct (Str.split_on p s) as [|w ws].
  { constructor; [|constructor]. simpl. by rewrite Hc. }
  inversion IH as [|? ? Hw Hws]; subst.
  constructor; [|done]. simpl. by rewrite Hc.
Qed.

Lemma strip_plain s :
  has_char (Str.is_char "|") s = false → has_char is_newline s = false →
  plain_field (Str.strip s).
Proof.
  intros H1 H2. split; [by apply has_char_strip|].
  split; [by apply has_char_strip|apply strip_trimmed].
Qed.

(** The first field of a stripped line that does not open a comment
    does not open one either, once stripped. *)
Lemma first_field_no_comment line p0 parts :
  Str.lstrip line = line →
  Str.startswith line "#" = false →
  Str.split_on (Str.is_char "|") line = p0 :: parts →
  Str.startswith (Str.strip p0) "#" = false.
Proof.
  destruct line as [|c line]; [by intros _ _ [= <- <-]|].
  intros Hl%lstrip_id_head Hc. simpl.
  destruct (Str.is_char "|" c).
  { by intros [= <- <-]. }
  intros Hparts.
  assert (∃ w, p0 = String c w) as [w ->].
  { destruct (Str.split_on _ line); injection Hparts as <- _; by eexists. }
  unfold Str.strip. rewrite rstrip_cons by done. simpl. rewrite Hl.
  unfold Str.startswith in *. cbn -[Ascii.ascii_dec] in *.
  destruct (Ascii.ascii_dec "#" c); [|done]. by destruct line.
Qed.

(** Every record that a line without a line break gives is well
    formed. *)
Lemma parse_line_wf raw repo :
  has_char is_newline raw = false →
  parse_line raw = Some repo → wf_entry repo.
Proof.
  intros Hraw. unfold parse_line.
  pose proof (strip_trimmed raw) as [Hl _].
  pose proof (has_char_strip _ _ Hraw) as Hnl.
  set (line := Str.strip raw) in *.
  destruct (Str.truthy line); [|done]. simpl.
  destruct (Str.startswith line "#") eqn:Hc; [done|]. simpl.
  pose proof (split_on_fields (Str.is_char "|") line) as Hbar.
  pose proof (split_on_has_char is_newline (Str.is_char "|") line Hnl) as Hbrk.
  pose proof (first_field_no_comment line) as Hfirst.
  destruct (Str.split_on (Str.is_char "|") line) as [|p0 [|p1 rest]];
    [done|done|].
  specialize (Hfirst p0 (p1 :: rest) Hl Hc eq_refl).
  inversion Hbar as [|? ? Hbar0 Hbar']; subst.
  inversion Hbar' as [|? ? Hbar1 Hbar'']; subst.
  inversion Hbrk as [|? ? Hbrk0 Hbrk']; subst.
  inversion Hbrk' as [|? ? Hbrk1 Hbrk'']; subst.
  intros [= <-]. unfold wf_entry. simpl.
  split; [by apply strip_plain|]. split; [done|].
  split; [by apply strip_plain|].
  destruct rest as [|p2 rest].
  { split; [|by left]. split; [done|]. split; [done|]. by split. }
  inversion Hbar'' as [|? ? Hbar2 Hbar3]; subst.
  inversion Hbrk'' as [|? ? Hbrk2 Hbrk3]; subst.
  split; [by apply strip_plain|].
  destruct rest as [|p3 rest]; [by left|]. right.
  inversion Hbar3 as [|? ? Hbar4 _]; subst.
  inversion Hbrk3 as [|? ? Hbrk4 _]; subst.
  split.
  - pose proof (split_on_fields (Str.is_char ",") (Str.strip p3)) as H1.
    pose proof (split_on_has_char (Str.is_char "|") (Str.is_char ",")
                  (Str.strip p3) (has_char_strip _ _ Hbar4)) as H2.
    pose proof (split_on_has_char is_newline (Str.is_char ",")
                  (Str.strip p3) (has_char_strip _ _ Hbrk4)) as H3.
    rewrite Forall_forall in *. intros tag Htag.
    split; [by apply H2|]. split; [by apply H1|by apply H3].
  - rewrite join_split. apply strip_trimmed.
Qed.

Lemma load_repo_list_wf st : Forall wf_entry (load_repo_list st).
Proof.
  unfold load_repo_list. destruct (repo_list_file st) as [text|]; [|done].
  rewrite load_fold. simpl. rewrite Forall_forall.
  intros repo (raw & Hraw & Hparse)%list_elem_of_omap.
  apply (parse_line_wf raw); [|done].
  pose proof (split_on_fields is_newline text) as H.
  rewrite Forall_forall in H. by apply H.
Qed.

Lemma record_text_no_break repo :
  wf_entry repo → has_char is_newline (record_text repo) = false.
Proof.
  intros ((_ & Hn & _) & _ & (_ & Hu & _) & (_ & Hd & _) & Htags).
  unfold record_text. rewrite !has_char_app, Hn, Hu, Hd. simpl.
  destruct Htags as [-> |[Htags _]]; [done|].
  apply has_char_join; [done|].
  eapply Forall_impl; [exact Htags|]. by intros tag (_ & _ & ?).
Qed.

(** The text of a well-formed entry is read as the entry, with an
    empty tag list turned into the list of one empty tag. *)
Lemma parse_record_wf repo :
  wf_entry repo → parse_line (record_text repo) = Some (reloaded repo).
Proof.
  destruct repo as [n u d tags]. intros (Hn & Hc & Hu & Hd & Htags).
  simpl in *. destruct tags as [|tag tags].
  - change (parse_line (record_text (entry n u d [""]))
            = Some (entry n u d [""])).
    apply parse_record_text; try done.
    by repeat constructor.
  - destruct Htags as [|[Htags Htrim]]; [done|].
    by apply (parse_record_text n u d (tag :: tags)).
Qed.

Lemma load_saved (repos : list RepoEntry) (t : string) :
  Forall wf_entry repos →
  load_text (fold_left (λ text repo, text +:+ repo_line repo) repos
               (t +:+ newline))
  = load_text t ++ map reloaded repos.
Proof.
  revert t. induction repos as [|repo repos IH]; intros t Hwf; simpl.
  { rewrite <- (app_nil_r' newline), load_text_app. done. }
  inversion Hwf as [|? ? Hrepo Hrepos]; subst.
  rewrite repo_line_text, <- !string_app_assoc.
  rewrite IH by done. rewrite string_app_assoc, load_text_app.
  rewrite <- app_assoc. f_equal.
  rewrite load_text_lines, split_on_none by by apply record_text_no_break.
  simpl. by rewrite parse_record_wf.
Qed.

Lemma saved_entries_reload repos st :
  writable st = true → Forall wf_entry repos →
  save_repo_list repos st
  = (true, (save_repo_list repos st).2) ∧
  load_repo_list (save_repo_list repos st).2 = map reloaded repos.
Proof.
  intros Hw Hwf. unfold save_repo_list. rewrite Hw. split; [done|].
  cbn [snd].
  change (load_repo_list {| repo_list_file := Some ?t; writable := true |})
    with (load_text t).
  assert (header = String.substring 0 (String.length header - 1) header
                   +:+ newline) as -> by by vm_compute.
  rewrite load_saved by done. f_equal.
Qed.


End RegistryFacts.

Section RegistryUpdates.




End RegistryUpdates.

(** X8. Every entry that [load_repo_list] returns, whatever the text of
    the registry file, has a name, a URL and a description without
    separator, line break or white space at either end, a name that
    does not start with the comment sign, and tags that are absent or
    are the comma-separated fields of a trimmed string without
    separator or line break. *)
Theorem loaded_entries_are_plain st : Forall wf_entry (load_repo_list st).
Proof. apply load_repo_list_wf. Qed.

(** X9. Saving well-formed entries to a writable registry succeeds, and
    loading the registry again gives the same entries in the same
    order, an empty tag list being read back as the list of one empty
    tag. *)
Theorem save_then_load repos st :
  writable st = true → Forall wf_entry repos →
  (save_repo_list repos st).1 = true ∧
  load_repo_list (save_repo_list repos st).2 = map reloaded repos.
Proof.
  intros Hw Hwf. destruct (saved_entries_reload repos st Hw Hwf) as [Hok Hload].
  split; [by rewrite Hok|done].
Qed.

Lemma save_then_load_witness :
  load_repo_list
    (save_repo_list
       [entry "nord" "https://example.org/nord.git" "Nord colours"
          ["sway"; "waybar"];
        entry "plain" "https://example.org/plain.git" "" []]
       empty_store).2
  = [entry "nord" "https://example.org/nord.git" "Nord colours"
       ["sway"; "waybar"];
     entry "plain" "https://example.org/plain.git" "" [""]].
Proof.
  apply (save_then_load
           [entry "nord" "https://example.org/nord.git" "Nord colours"
              ["sway"; "waybar"];
            entry "plain" "https://example.org/plain.git" "" []]
           empty_store).
  - reflexivity.
  - apply List.Forall_cons; [|apply List.Forall_cons; [|apply List.Forall_nil]].
    + split; [by vm_compute|]. split; [by vm_compute|].
      split; [by vm_compute|]. split; [by vm_compute|]. right.
      split; [|by vm_compute].
      apply List.Forall_cons; [by vm_compute|].
      apply List.Forall_cons; [by vm_compute|apply List.Forall_nil].
    + split; [by vm_compute|]. split; [by vm_compute|].
      split; [by vm_compute|]. split; [by vm_compute|]. by left.
Defined.





(** ** Listing the widgets *)

(** X12. When [list_widgets] returns, the repository path is a
    directory, and the result is in ascending order and holds exactly
    the names of its subdirectories that do not start with a dot, each
    as often as it is listed. *)
Theorem list_widgets_sorted self fs widgets :
  list_widgets self fs = Ok widgets →
  ∃ items,
    lookup_path fs (repo_path self) = Some (Dir items) ∧
    StronglySorted String.le widgets ∧
    widgets ≡ₚ map fst (List.filter is_widget_dir items).
Proof.
  unfold list_widgets, widget_names, iterdir.
  destruct (lookup_path fs (repo_path self)) as [[|items]|]; [done| |done].
  simpl. intros [= <-]. exists items. split; [done|]. split.
  - apply StronglySorted_merge_sort; apply _.
  - apply merge_sort_Permutation.
Qed.

Lemma list_widgets_sorted_witness :
  ∃ items,
    lookup_path example_fs (repo_path example_manager) = Some (Dir items) ∧
    StronglySorted String.le ["bar"; "term"] ∧
    ["bar"; "term"] ≡ₚ map fst (List.filter is_widget_dir items).
Proof.
  apply (list_widgets_sorted example_manager example_fs ["bar"; "term"]).
  vm_compute. reflexivity.
Defined.
